(** * flexmeasures_weather.utils.weather

    A shallow embedding of the forecast pipeline of the plugin: the WeatherAPI
    normaliser [process_weatherapi_data], the sensor resolver
    [get_weather_sensor] and the forecast assembler [save_forecasts_in_db],
    together with the properties of them that the specification states.

    Python values are modelled as follows.
    - A JSON number is an [int] (arbitrary precision, [Z]) or a [float]
      (IEEE-754 binary64, Rocq's primitive floats).
    - A dictionary with string keys is a [gmap string _]; the dictionary of
      belief batches, whose iteration order matters, is an association list in
      insertion order.
    - An exception is a value of [exn]; a function that may raise returns
      [exn + A].
    - The assembler talks to the outside world (clock, HTTP dispatcher, sensor
      registry, storage).  Its model is a function of the trace of external
      calls made so far, and the answers of the outside world are the fields
      of an environment [env]. *)

From Stdlib Require Import ZArith QArith Floats Ascii String.
From stdpp Require Import base option list gmap strings.

Open Scope string_scope.
Open Scope list_scope.
Open Scope Z_scope.

(** ** Exceptions *)

(** The three [raise Exception(...)] of the module. *)
Inductive failure :=
| InvalidProviderName
| UnfittingEventResolution (sensor_name : string) (expected actual : Z)
| NothingToPutInTheDatabase.

Inductive exn :=
| KeyError (key : string)
| IndexError
| TypeError
| OverflowError
| ZeroDivisionError
| UnboundLocalError (variable : string)
| AssertionError
| Exception (why : failure).

Definition result (A : Type) : Type := exn + A.

#[export] Instance result_ret : MRet result := λ A x, inr x.
#[export] Instance result_bind : MBind result := λ A B f m,
  match m with
  | inl e => inl e
  | inr x => f x
  end.

#[export] Instance result_fmap : FMap result := λ A B f m,
  match m with
  | inl e => inl e
  | inr x => inr (f x)
  end.

Definition is_ok {A} (r : result A) : bool :=
  match r with inr _ => true | inl _ => false end.

(** ** Numbers *)

Inductive num :=
| NInt (z : Z)
| NFloat (f : float).

(** The literal [3.6]: the binary64 value nearest to 3.6. *)
Definition f3_6 : float := 0x1.ccccccccccccdp+1%float.
Definition f100 : float := 100%float.

(** [float(z)]: round to nearest, ties to even; an integer that rounds beyond
    the largest double raises. *)
Definition float_of_int (z : Z) : result float :=
  let f := SF2Prim (binary_normalize prec emax z 0 false) in
  if is_infinity f then inl OverflowError else inr f.

Definition Z2SF (z : Z) : spec_float :=
  match z with
  | Z0 => S754_zero false
  | Zpos p => S754_finite false p 0
  | Zneg p => S754_finite true p 0
  end.

(** [a / b] on two integers: the correctly rounded quotient. *)
Definition int_truediv (a b : Z) : result float :=
  if (b =? 0)%Z then inl ZeroDivisionError
  else
    let f := SF2Prim (SFdiv prec emax (Z2SF a) (Z2SF b)) in
    if is_infinity f then inl OverflowError else inr f.

Definition float_truediv (x y : float) : result float :=
  if (y =? 0)%float then inl ZeroDivisionError else inr (x / y)%float.

(** Python's [/] on numbers. *)
Definition py_truediv (a b : num) : result float :=
  match a, b with
  | NInt x, NInt y => int_truediv x y
  | NInt x, NFloat y => fx ← float_of_int x; float_truediv fx y
  | NFloat x, NInt y => fy ← float_of_int y; float_truediv x fy
  | NFloat x, NFloat y => float_truediv x y
  end.

(** Python's [*] on numbers. *)
Definition py_mul (a b : num) : result num :=
  match a, b with
  | NInt x, NInt y => inr (NInt (x * y))
  | NInt x, NFloat y => fx ← float_of_int x; inr (NFloat (fx * y)%float)
  | NFloat x, NInt y => fy ← float_of_int y; inr (NFloat (x * fy)%float)
  | NFloat x, NFloat y => inr (NFloat (x * y)%float)
  end.

(** ** JSON values and hourly records *)

#[warnings="-register-all"]
Inductive value :=
| VNum (n : num)
| VStr (s : string)
| VList (l : list value)
| VDict (d : list (string * value)).

(** One hour of forecast in the common (OpenWeatherMap) shape: a dictionary
    from field name to value. *)
Abbreviation forecast := (gmap string value).

(** ** Strings *)

(** [str.isspace] on one character; characters are code points below 256. *)
Definition isspace (c : ascii) : bool :=
  let n := nat_of_ascii c in
  ((9 <=? n) && (n <=? 13) || (28 <=? n) && (n <=? 32)
   || (n =? 133) || (n =? 160))%nat.

(** [s.split()] with no separator: the maximal runs of non-space characters.
    [word] is the run being read. *)
Fixpoint split_from (word : string) (s : string) : list string :=
  match s with
  | EmptyString => if decide (word = "") then [] else [word]
  | String c rest =>
      if isspace c then
        if decide (word = "") then split_from "" rest
        else word :: split_from "" rest
      else split_from (word +:+ String c "") rest
  end.

Definition split (s : string) : list string := split_from "" s.

(** [l[i]] for a non-negative constant [i]. *)
Definition index {A} (l : list A) (i : nat) : result A :=
  match l !! i with
  | Some x => inr x
  | None => inl IndexError
  end.

(** [l[start:stop]], with Python's treatment of negative and out-of-range
    bounds. *)
Definition slice_bound (len i : Z) : Z :=
  if (i <? 0)%Z then Z.max (i + len) 0 else Z.min i len.

Definition slice {A} (l : list A) (start stop : Z) : list A :=
  let len := Z.of_nat (length l) in
  let lo := slice_bound len start in
  let hi := slice_bound len stop in
  take (Z.to_nat (hi - lo)) (drop (Z.to_nat lo) l).

(** ** The WeatherAPI normaliser *)

(** The [condition] object of a WeatherAPI hour. *)
Record condition := {
  code : value;
  text : string;
  icon : value;
}.

(** One entry of a WeatherAPI [hour] array, with the fields the normaliser
    reads.  Fields that are copied are arbitrary values; fields that enter
    arithmetic are numbers; the condition text is a string.  An hour that
    lacks one of these keys, or holds another kind of value in a field that
    enters arithmetic or in the condition, has no image in this record: the
    [KeyError], [TypeError] and [AttributeError] that the source raises on
    such an hour are not modelled. *)
Record wapi_hour := {
  time_epoch : value;
  temp_c : value;
  feelslike_c : value;
  pressure_mb : value;
  humidity : value;
  dewpoint_c : value;
  uv : value;
  cloud : value;
  vis_km : num;
  wind_kph : num;
  wind_degree : value;
  gust_kph : num;
  cond : condition;
  chance_of_rain : num;
}.

(** One element of [forecastday]. *)
Record forecastday := {
  hour : list wapi_hour;
}.

(** The dictionary literal is evaluated entry by entry, so the first failing
    conversion is the one that is raised. *)
Definition map_weather_api_to_owm (weather_api_data : wapi_hour) : result forecast :=
  visibility ← py_mul (vis_km weather_api_data) (NInt 1000);
  wind_speed ← py_truediv (wind_kph weather_api_data) (NFloat f3_6);
  wind_gust ← py_truediv (gust_kph weather_api_data) (NFloat f3_6);
  main ← index (split (text (cond weather_api_data))) 0;
  pop ← py_truediv (chance_of_rain weather_api_data) (NInt 100);
  mret (list_to_map [
    ("dt", time_epoch weather_api_data);
    ("temp", temp_c weather_api_data);
    ("feels_like", feelslike_c weather_api_data);
    ("pressure", pressure_mb weather_api_data);
    ("humidity", humidity weather_api_data);
    ("dew_point", dewpoint_c weather_api_data);
    ("uvi", uv weather_api_data);
    ("clouds", cloud weather_api_data);
    ("visibility", VNum visibility);
    ("wind_speed", VNum (NFloat wind_speed));
    ("wind_deg", wind_degree weather_api_data);
    ("wind_gust", VNum (NFloat wind_gust));
    ("weather", VList [VDict [
       ("id", code (cond weather_api_data));
       ("main", VStr main);
       ("description", VStr (text (cond weather_api_data)));
       ("icon", icon (cond weather_api_data))]]);
    ("pop", VNum (NFloat pop))]).

(** The list comprehension: map in order, stop at the first exception. *)
Fixpoint map_result {A B} (f : A → result B) (l : list A) : result (list B) :=
  match l with
  | [] => inr []
  | x :: l' => y ← f x; ys ← map_result f l'; inr (y :: ys)
  end.

Definition process_weatherapi_data (data : list forecastday) (hour_no : Z)
    : result (list forecast) :=
  first_day ← hour <$> index data 0;
  second_day ← hour <$> index data 1;
  third_day ← hour <$> index data 2;
  let combined := first_day ++ second_day ++ third_day in
  let relevant := slice combined hour_no (hour_no + 48) in
  map_result map_weather_api_to_owm relevant.

(** *** What the normaliser asks of an hour *)

(** The condition text has a first word. *)
Definition has_word (e : wapi_hour) : Prop := split (text (cond e)) ≠ [].

(** None of the three divisions overflows. *)
Definition divisions_defined (e : wapi_hour) : Prop :=
  is_ok (py_truediv (wind_kph e) (NFloat f3_6)) = true ∧
  is_ok (py_truediv (gust_kph e) (NFloat f3_6)) = true ∧
  is_ok (py_truediv (chance_of_rain e) (NInt 100)) = true.

#[export] Instance has_word_dec e : Decision (has_word e).
Proof. unfold has_word. apply _. Defined.

#[export] Instance divisions_defined_dec e : Decision (divisions_defined e).
Proof. unfold divisions_defined. apply _. Defined.

(** [n * 1000], which cannot raise. *)
Definition times_1000 (n : num) : num :=
  match n with
  | NInt z => NInt (z * 1000)
  | NFloat f => NFloat (f * 1000)%float
  end.

(** ** Sensors, beliefs and data sources *)

(** An instant, in microseconds since the epoch, and a duration in
    microseconds. *)
Definition datetime := Z.
Definition timedelta := Z.

(** [timedelta(minutes=10)]. *)
Definition ten_minutes : timedelta := 600000000.

(** A point on the map: latitude and longitude. *)
Definition location : Type := float * float.

Module Sensor.
(** A registered sensor of the host platform, with the two attributes the
    module reads.  The id is the primary key of the registry: two sensors
    are the same sensor when they have the same id, and the registry gives
    no two sensors one id. *)
Record t := {
  id : Z;
  name : string;
  event_resolution : timedelta;
}.
End Sensor.

(** One entry of the [mapping] table of sensor specifications. *)
Record sensor_spec := {
  fm_sensor_name : string;
  weather_sensor_name : string;
  (** the key [unit] *)
  sensor_unit : string;
  event_resolution : timedelta;
}.

(** Modelled from the spec: the data sources returned by
    [get_or_create_owm_data_source] and
    [get_or_create_owm_data_source_for_derived_data] of the [modeling] module:
    an identifier that tells raw provider data from derived values. *)
Inductive DataSource :=
| OwmSource
| OwmDerivedSource.

Record TimedBelief := {
  event_start : datetime;
  belief_time : datetime;
  event_value : value;
  sensor : Sensor.t;
  source : DataSource;
}.

(** ** The outside world *)

(** What the collaborators answer.  The clock and the dispatcher are asked
    once per location, so their answers are indexed by the position of the
    location in the run. *)
Record env := {
  (** the table [sensor_specs.mapping] *)
  mapping : list sensor_spec;
  (** the setting WEATHER_MAXIMAL_DEGREE_LOCATION_DISTANCE, or its default *)
  max_degree_difference_for_nearest_weather_sensor : num;
  (** [server_now()] *)
  server_now : nat → datetime;
  (** [call_api(api_key, location)]: the call time and the hourly forecasts,
      or the exception of the adapter *)
  call_api : nat → string → location → result (datetime * list forecast);
  (** [as_server_time(datetime.fromtimestamp(ts, get_timezone()))] *)
  as_server_time_fromtimestamp : num → result datetime;
  (** the nearest registered sensor of that name, if there is one *)
  find_weather_sensor_by_location : location → num → string → option Sensor.t;
  (** [compute_irradiance(latitude, longitude, datetime, cloud_coverage)] *)
  compute_irradiance : float → float → datetime → float → float;
  (** the status string of [save_to_db] *)
  save_to_db : list TimedBelief → string;
}.

(** The calls and log records of a run that the specification speaks of, in
    the order in which they happen.  Progress messages printed with
    [click.echo] carry no data and are left out. *)
Inductive event :=
| CallApi (api_key : string) (loc : location)
| SkewWarning (diff : timedelta)
| FindWeatherSensor (loc : location) (max_degree : num) (sensor_name : string)
| Warning (label : string) (fc_datetime : datetime)
| SaveToDb (beliefs : list TimedBelief)
| Info (status : string).

(** A computation that reads and extends the trace and may raise. *)
Definition M (A : Type) : Type := list event → result A * list event.

#[export] Instance M_ret : MRet M := λ A x tr, (inr x, tr).
#[export] Instance M_bind : MBind M := λ A B f m tr,
  match m tr with
  | (inl e, tr') => (inl e, tr')
  | (inr x, tr') => f x tr'
  end.

Definition raise {A} (e : exn) : M A := λ tr, (inl e, tr).
Definition emit (ev : event) : M unit := λ tr, (inr tt, tr ++ [ev]).
Definition lift {A} (r : result A) : M A := λ tr, (r, tr).

(** A [for] loop that threads the variables it assigns. *)
Fixpoint foldM {A B} (f : A → B → M A) (a : A) (l : list B) : M A :=
  match l with
  | [] => mret a
  | x :: l' => a' ← f a x; foldM f a' l'
  end.

(** ** The sensor resolver *)

#[export] Instance Sensor_eq_dec : EqDecision Sensor.t.
Proof. solve_decision. Defined.

Definition get_weather_sensor (E : env) (sensor_specs : sensor_spec)
    (loc : location) (weather_sensors : gmap string (option Sensor.t))
    (max_degree : num) : M (option Sensor.t * gmap string (option Sensor.t)) :=
  let sensor_name := fm_sensor_name sensor_specs in
  '(weather_sensor, weather_sensors) ←
    match weather_sensors !! sensor_name with
    | Some weather_sensor => mret (weather_sensor, weather_sensors)
    | None =>
        _ ← emit (FindWeatherSensor loc max_degree sensor_name);
        let weather_sensor :=
          find_weather_sensor_by_location E loc max_degree sensor_name in
        mret (weather_sensor, <[sensor_name := weather_sensor]> weather_sensors)
    end;
  match weather_sensor with
  | Some s =>
      if decide (Sensor.event_resolution s ≠ event_resolution sensor_specs)
      then raise (Exception (UnfittingEventResolution sensor_name
                    (event_resolution sensor_specs) (Sensor.event_resolution s)))
      else mret (weather_sensor, weather_sensors)
  | None => mret (weather_sensor, weather_sensors)
  end.

(** ** The forecast assembler *)

(** [db_forecasts]: the beliefs collected per sensor, in insertion order. *)
Abbreviation beliefs_per_sensor := (list (Sensor.t * list TimedBelief)).

(** [if weather_sensor not in db_forecasts.keys(): db_forecasts[weather_sensor] = []] *)
Definition db_ensure (s : Sensor.t) (db : beliefs_per_sensor) : beliefs_per_sensor :=
  if decide (s ∈ db.*1) then db else db ++ [(s, [])].

(** [db_forecasts[weather_sensor].append(belief)], for a key that is there. *)
Fixpoint db_append (s : Sensor.t) (b : TimedBelief) (db : beliefs_per_sensor)
    : beliefs_per_sensor :=
  match db with
  | [] => []
  | (s', bs) :: db' =>
      if decide (s' = s) then (s', bs ++ [b]) :: db'
      else (s', bs) :: db_append s b db'
  end.

(** The variables of the loop over the sensor specifications. *)
Record frame := {
  weather_sensors : gmap string (option Sensor.t);
  db_forecasts : beliefs_per_sensor;
  data_source : DataSource;
}.

(** [fc_value / 100.0] *)
Definition cloud_ratio (fc_value : value) : result float :=
  match fc_value with
  | VNum n => py_truediv n (NFloat f100)
  | _ => inl TypeError
  end.

(** The body of [for sensor_specs in mapping]. *)
Definition process_spec (E : env) (loc : location) (now : datetime)
    (fc : forecast) (fc_datetime : datetime) (fr : frame)
    (sensor_specs : sensor_spec) : M frame :=
  let sensor_name := fm_sensor_name sensor_specs in
  let owm_response_label := weather_sensor_name sensor_specs in
  match fc !! owm_response_label with
  | Some raw =>
      '(weather_sensor, weather_sensors) ←
        get_weather_sensor E sensor_specs loc (weather_sensors fr)
          (max_degree_difference_for_nearest_weather_sensor E);
      match weather_sensor with
      | Some s =>
          let db := db_ensure s (db_forecasts fr) in
          '(fc_value, data_source) ←
            (if decide (sensor_name = "irradiance") then
               ratio ← lift (cloud_ratio raw);
               mret (VNum (NFloat
                       (compute_irradiance E (fst loc) (snd loc) fc_datetime ratio)),
                     OwmDerivedSource)
             else mret (raw, data_source fr));
          mret {| weather_sensors := weather_sensors;
                  db_forecasts :=
                    db_append s {| event_start := fc_datetime;
                                   belief_time := now;
                                   event_value := fc_value;
                                   sensor := s;
                                   source := data_source |} db;
                  data_source := data_source |}
      | None =>
          mret {| weather_sensors := weather_sensors;
                  db_forecasts := db_forecasts fr;
                  data_source := data_source fr |}
      end
  | None =>
      _ ← emit (Warning owm_response_label fc_datetime);
      mret fr
  end.

Definition process_specs (E : env) (loc : location) (now : datetime)
    (fc : forecast) (fc_datetime : datetime) (fr : frame)
    (specs : list sensor_spec) : M frame :=
  foldM (process_spec E loc now fc fc_datetime) fr specs.

(** The body of [for fc in forecasts]; [data_source] is assigned afresh for
    every hour. *)
Definition process_forecast (E : env) (loc : location) (now : datetime)
    (vars : gmap string (option Sensor.t) * beliefs_per_sensor)
    (fc : forecast) : M (gmap string (option Sensor.t) * beliefs_per_sensor) :=
  fc_datetime ←
    match fc !! "dt" with
    | Some (VNum ts) => lift (as_server_time_fromtimestamp E ts)
    | Some _ => raise TypeError
    | None => raise (KeyError "dt")
    end;
  fr ← process_specs E loc now fc fc_datetime
         {| weather_sensors := vars.1;
            db_forecasts := vars.2;
            data_source := OwmSource |}
         (mapping E);
  mret (weather_sensors fr, db_forecasts fr).

(** The body of [for location in locations]: both dictionaries start empty. *)
Definition process_location (E : env) (api_key : string) (k : nat)
    (loc : location) : M beliefs_per_sensor :=
  let now := server_now E k in
  _ ← emit (CallApi api_key loc);
  '(time_of_api_call, forecasts) ← lift (call_api E k api_key loc);
  let diff_fm_owm := now - time_of_api_call in
  _ ← (if decide (Z.abs diff_fm_owm > ten_minutes)
       then emit (SkewWarning diff_fm_owm) else mret tt);
  vars ← foldM (process_forecast E loc now) (∅, []) forecasts;
  mret vars.2.

(** The loop over the locations.  [db_forecasts] is the value the variable
    of that name holds: unbound before the first location, and rebound by
    every location. *)
Fixpoint for_locations (E : env) (api_key : string) (k : nat)
    (locations : list location) (db_forecasts : option beliefs_per_sensor)
    : M (option beliefs_per_sensor) :=
  match locations with
  | [] => mret db_forecasts
  | loc :: rest =>
      db ← process_location E api_key k loc;
      for_locations E api_key (S k) rest (Some db)
  end.

(** [for sensor in db_forecasts.keys(): ...] *)
Fixpoint save_batches (E : env) (db : beliefs_per_sensor) : M unit :=
  match db with
  | [] => mret tt
  | (s, beliefs) :: rest =>
      if decide (length beliefs = 0%nat)
      then raise (Exception NothingToPutInTheDatabase)
      else
        _ ← emit (SaveToDb beliefs);
        let status := save_to_db E beliefs in
        _ ← (if decide (status = "success_but_nothing_new") then emit (Info status)
             else if decide (status = "success_with_unchanged_beliefs_skipped")
             then emit (Info status)
             else mret tt);
        save_batches E rest
  end.

Definition save_forecasts_in_db (E : env) (api_key : string)
    (locations : list location) : M unit :=
  db_forecasts ← for_locations E api_key 0 locations None;
  match db_forecasts with
  | Some db => save_batches E db
  | None => raise (UnboundLocalError "db_forecasts")
  end.

(** ** Vocabulary of the properties *)

(** Running [m] after the trace [tr] ends well in a state that satisfies [Ok],
    or raises after a trace that satisfies [Err]. *)
Definition post {A} (m : M A) (tr : list event)
    (Ok : A → list event → Prop) (Err : list event → Prop) : Prop :=
  match m tr with
  | (inr a, tr') => Ok a tr'
  | (inl _, tr') => Err tr'
  end.

(** The sensor that [get_weather_sensor] hands out for a name: the cached
    one if the name is cached, else the one of the registry. *)
Definition resolved (E : env) (loc : location)
    (weather_sensors : gmap string (option Sensor.t)) (sensor_name : string)
    : option Sensor.t :=
  match weather_sensors !! sensor_name with
  | Some weather_sensor => weather_sensor
  | None =>
      find_weather_sensor_by_location E loc
        (max_degree_difference_for_nearest_weather_sensor E) sensor_name
  end.

(** The batch of a sensor; a sensor without a batch has no beliefs. *)
Fixpoint batch_of (s : Sensor.t) (db : beliefs_per_sensor) : list TimedBelief :=
  match db with
  | [] => []
  | (s', bs) :: db' => if decide (s' = s) then bs else batch_of s db'
  end.

(** Every belief of every batch satisfies [P]. *)
Definition all_beliefs (P : TimedBelief → Prop) (db : beliefs_per_sensor) : Prop :=
  Forall (λ sb, Forall P sb.2) db.

Definition is_save (ev : event) : bool :=
  match ev with SaveToDb _ => true | _ => false end.

(** No batch has been handed to [save_to_db]. *)
Definition no_saves (tr : list event) : Prop :=
  Forall (λ ev, is_save ev = false) tr.

(** The batches handed to [save_to_db], in order. *)
Definition saved (tr : list event) : list (list TimedBelief) :=
  omap (λ ev, match ev with SaveToDb beliefs => Some beliefs | _ => None end) tr.

(** The id of the sensor and the number of beliefs of every batch. *)
Definition batch_sizes (db : beliefs_per_sensor) : list (Z * nat) :=
  map (λ sb, (Sensor.id sb.1, length sb.2)) db.

(** The ids of the sensors of the beliefs of every batch. *)
Definition sensor_ids (batches : list (list TimedBelief)) : list (list Z) :=
  map (map (λ b, Sensor.id (sensor b))) batches.

#[export] Instance float_eq_dec : EqDecision float.
Proof.
  intros x y. destruct (Leibniz.eqb x y) eqn:Heq.
  - left. by apply Leibniz.eqb_spec.
  - right. intros Hxy. apply Leibniz.eqb_spec in Hxy. congruence.
Defined.

(** A call of the registry for that name at that place. *)
Definition is_find (loc : location) (sensor_name : string) (ev : event) : bool :=
  match ev with
  | FindWeatherSensor loc' _ sensor_name' =>
      bool_decide (loc' = loc ∧ sensor_name' = sensor_name)
  | _ => false
  end.

Definition resolver_calls (loc : location) (sensor_name : string)
    (tr : list event) : nat :=
  length (filter (λ ev, is_find loc sensor_name ev = true) tr).

Definition occurrences (loc : location) (locations : list location) : nat :=
  length (filter (λ l, l = loc) locations).

(** The characters of a string, and what [str.split] tells apart: a text of
    nothing but white space, and a word. *)
Definition chars (s : string) : list ascii := list_ascii_of_string s.

Definition blank (s : string) : Prop :=
  Forall (λ c, isspace c = true) (chars s).

Definition is_word (w : string) : Prop :=
  w ≠ "" ∧ Forall (λ c, isspace c = false) (chars w).

(** What a batch is made of: it is not empty, and each of its beliefs
    satisfies [Q] for the sensor of the batch. *)
Definition batch_ok (Q : Sensor.t → TimedBelief → Prop)
    (sb : Sensor.t * list TimedBelief) : Prop :=
  sb.2 ≠ [] ∧ Forall (Q sb.1) sb.2.

(** A belief made at [now] for the sensor [s] out of one of the hours [fcs]:
    its event starts at the converted timestamp of that hour. *)
Definition made_from (E : env) (now : datetime) (fcs : list forecast)
    (s : Sensor.t) (b : TimedBelief) : Prop :=
  sensor b = s ∧ belief_time b = now ∧
  ∃ fc ts, fc ∈ fcs ∧ fc !! "dt" = Some (VNum ts) ∧
           as_server_time_fromtimestamp E ts = inr (event_start b).

(** The batches have distinct sensors, none is empty, and every belief was
    made from one of the hours. *)
Definition collected (E : env) (now : datetime) (fcs : list forecast)
    (db : beliefs_per_sensor) : Prop :=
  NoDup db.*1 ∧ Forall (batch_ok (made_from E now fcs)) db.

(** The locations the dispatcher was called for, in order. *)
Definition api_calls (tr : list event) : list location :=
  omap (λ ev, match ev with CallApi _ loc => Some loc | _ => None end) tr.

(** What the saving loop does: it saves and it logs a status. *)
Definition is_save_or_info (ev : event) : bool :=
  match ev with SaveToDb _ | Info _ => true | _ => false end.

(** ** The table of supported sensors *)

(** [get_supported_sensor_spec]: the first entry of the table with that
    name; the copy that the code returns has the same content. *)
Definition get_supported_sensor_spec (E : env) (name : string)
    : option sensor_spec :=
  snd <$> list_find (λ supported_sensor_spec,
                       fm_sensor_name supported_sensor_spec = name) (mapping E).

(** ** The provider adapters and the dispatcher *)

Module Provider.

(** The answer of a provider as [requests] shows it: the status code and,
    already decoded, what [res.json()] returns. *)
Record response (A : Type) := {
  status_code : Z;
  json : A;
}.
Arguments status_code {A} _.
Arguments json {A} _.

(** What the OpenWeatherMap adapter reads of the answer:
    [data["current"]["dt"]] and [data["hourly"]]. *)
Record owm_data := {
  current_dt : num;
  hourly : list forecast;
}.

(** What the WeatherAPI adapter reads of the answer:
    [data["location"]["localtime_epoch"]], an integer,
    [data["location"]["tz_id"]] and [data["forecast"]["forecastday"]]. *)
Record wapi_data := {
  location_localtime_epoch : Z;
  location_tz_id : string;
  forecast_forecastday : list forecastday;
}.

(** The configuration and the network.  The answers are indexed by the
    number of the request in the run. *)
Record network := {
  (** [str(current_app.config.get("WEATHER_PROVIDER", ""))] *)
  WEATHER_PROVIDER : string;
  (** the request of [call_openweatherapi] *)
  get_openweathermap : nat → string → location → response owm_data;
  (** the request of [call_weatherapi], with its number of days *)
  get_weatherapi : nat → string → location → Z → response wapi_data;
  (** [datetime.fromtimestamp(ts, ZoneInfo(tz_id)).hour], or the exception of
      an unknown zone *)
  local_hour : string → Z → result Z;
  (** [.replace(second=0, microsecond=0)] *)
  replace_second_microsecond : datetime → datetime;
}.

Definition API_VERSION : string := "3.0".

(** Whether [check_openweathermap_version] logs its warning. *)
Definition check_openweathermap_version (api_version : string) : bool :=
  bool_decide (api_version ∉ ["2.5"; "3.0"]).

(** The version check before the request only logs, and [API_VERSION] is a
    supported version. *)
Definition call_openweatherapi (N : network) (E : env) (k : nat)
    (api_key : string) (loc : location) : result (datetime * list forecast) :=
  let res := get_openweathermap N k api_key loc in
  if decide (status_code res = 200) then
    let data := json res in
    time_of_api_call ← as_server_time_fromtimestamp E (current_dt data);
    mret (replace_second_microsecond N time_of_api_call, hourly data)
  else inl AssertionError.

Definition call_weatherapi (N : network) (E : env) (k : nat)
    (api_key : string) (loc : location) (days : Z)
    : result (datetime * list forecast) :=
  let res := get_weatherapi N k api_key loc days in
  if decide (status_code res = 200) then
    let data := json res in
    let time_of_call := location_localtime_epoch data in
    hour_no ← local_hour N (location_tz_id data) time_of_call;
    time_of_api_call ← as_server_time_fromtimestamp E (NInt time_of_call);
    let time_of_api_call := replace_second_microsecond N time_of_api_call in
    let relevant := forecast_forecastday data in
    hourly ← process_weatherapi_data relevant hour_no;
    mret (time_of_api_call, hourly)
  else inl AssertionError.

Definition call_api (N : network) (E : env) (k : nat)
    (api_key : string) (loc : location) : result (datetime * list forecast) :=
  let provider := WEATHER_PROVIDER N in
  if decide (provider ∉ ["OWM"; "WAPI"]) then inl (Exception InvalidProviderName)
  else if decide (provider = "OWM") then call_openweatherapi N E k api_key loc
  else call_weatherapi N E k api_key loc 3.

End Provider.

(** The world in which the assembler reaches the providers through this
    dispatcher. *)
Definition connect (N : Provider.network) (E : env) : env :=
  {| mapping := mapping E;
     max_degree_difference_for_nearest_weather_sensor :=
       max_degree_difference_for_nearest_weather_sensor E;
     server_now := server_now E;
     call_api := λ k api_key loc, Provider.call_api N E k api_key loc;
     as_server_time_fromtimestamp := as_server_time_fromtimestamp E;
     find_weather_sensor_by_location := find_weather_sensor_by_location E;
     compute_irradiance := compute_irradiance E;
     save_to_db := save_to_db E |}.

(** The number of beliefs of all batches. *)
Definition total (db : beliefs_per_sensor) : nat := length (concat db.*2).

(** A call of the registry is about one of the places [locations], with the
    configured distance. *)
Definition asks_about (E : env) (locations : list location) (ev : event) : Prop :=
  match ev with
  | FindWeatherSensor loc max_degree _ =>
      loc ∈ locations ∧
      max_degree = max_degree_difference_for_nearest_weather_sensor E
  | _ => True
  end.

(** What an hour does for the specification [sp] of a table
    [pre ++ sp :: post] when it makes the belief [b] for it: from the
    variables [vars] and the primary source it runs the specifications before
    [sp], resolves the sensor of [b], puts [b] at the end of the batch of that
    sensor, and runs the specifications after [sp] to its end. *)
Definition hour_appends (E : env) (loc : location) (now : datetime)
    (vars : gmap string (option Sensor.t) * beliefs_per_sensor) (fc : forecast)
    (pre : list sensor_spec) (sp : sensor_spec) (post : list sensor_spec)
    (b : TimedBelief) (tr : list event)
    (vars' : gmap string (option Sensor.t) * beliefs_per_sensor)
    (tr' : list event) : Prop :=
  ∃ fr1 tr1 ws2 tr2 fr3,
    process_specs E loc now fc (event_start b)
      {| weather_sensors := vars.1; db_forecasts := vars.2;
         data_source := OwmSource |} pre tr = (inr fr1, tr1) ∧
    get_weather_sensor E sp loc (weather_sensors fr1)
      (max_degree_difference_for_nearest_weather_sensor E) tr1
      = (inr (Some (sensor b), ws2), tr2) ∧
    batch_of (sensor b)
      (db_append (sensor b) b (db_ensure (sensor b) (db_forecasts fr1)))
      = batch_of (sensor b) (db_forecasts fr1) ++ [b] ∧
    process_specs E loc now fc (event_start b)
      {| weather_sensors := ws2;
         db_forecasts :=
           db_append (sensor b) b (db_ensure (sensor b) (db_forecasts fr1));
         data_source := source b |} post tr2 = (inr fr3, tr') ∧
    vars' = (weather_sensors fr3, db_forecasts fr3).

(** ** Exact values *)

(** The rational number that a finite double stands for. *)
Definition float_value (f : float) : option Q :=
  match Prim2SF f with
  | S754_zero _ => Some (inject_Z 0)
  | S754_finite s m e =>
      Some (inject_Z (if s then Z.neg m else Z.pos m) * Qpower (inject_Z 2) e)%Q
  | _ => None
  end.

Definition num_value (n : num) : option Q :=
  match n with
  | NInt z => Some (inject_Z z)
  | NFloat f => float_value f
  end.

Definition has_value (n : num) (q : Q) : bool :=
  match num_value n with
  | Some y => Qeq_bool y q
  | None => false
  end.

(** Field [key] of [g] is a number whose value is [convert] of the value of
    [input], as rational numbers. *)
Definition converted (g : forecast) (key : string) (input : num) (convert : Q → Q)
    : bool :=
  match g !! key, num_value input with
  | Some (VNum out), Some q => has_value out (convert q)
  | _, _ => false
  end.

(** The four conversions as the specification words them: times 1000,
    divided by 3.6, divided by 100. *)
Definition visibility_exact (e : wapi_hour) (g : forecast) : bool :=
  converted g "visibility" (vis_km e) (λ km, km * inject_Z 1000)%Q.

Definition wind_speed_exact (e : wapi_hour) (g : forecast) : bool :=
  converted g "wind_speed" (wind_kph e) (λ kph, kph / (36 # 10))%Q.

Definition wind_gust_exact (e : wapi_hour) (g : forecast) : bool :=
  converted g "wind_gust" (gust_kph e) (λ kph, kph / (36 # 10))%Q.

Definition pop_exact (e : wapi_hour) (g : forecast) : bool :=
  converted g "pop" (chance_of_rain e) (λ percent, percent / inject_Z 100)%Q.

(** [kph / 3.6] on an integer is exact just when [kph] is a multiple of 9,
    and [percent / 100] just when [percent] is a multiple of 25. *)
Definition kph_agrees (kph : Z) : bool :=
  match py_truediv (NInt kph) (NFloat f3_6) with
  | inr w => eqb (has_value (NFloat w) (inject_Z kph / (36 # 10))%Q) (kph mod 9 =? 0)
  | inl _ => false
  end.

Definition percent_agrees (percent : Z) : bool :=
  match py_truediv (NInt percent) (NInt 100) with
  | inr p =>
      eqb (has_value (NFloat p) (inject_Z percent / inject_Z 100)%Q)
          (percent mod 25 =? 0)
  | inl _ => false
  end.

(** ** A canned run *)

Module Fixture.

Definition one_hour : timedelta := 3600000000.

Definition spec (fm owm : string) : sensor_spec :=
  {| fm_sensor_name := fm; weather_sensor_name := owm;
     sensor_unit := ""; event_resolution := one_hour |}.

(** A table in the shape of the plugin's: two sensors read the cloud cover,
    and irradiance comes last. *)
Definition table : list sensor_spec :=
  [spec "temperature" "temp"; spec "wind speed" "wind_speed";
   spec "cloud cover" "clouds"; spec "irradiance" "clouds"].

Definition utrecht : location := (52.125%float, 5.25%float).
Definition paris : location := (48.875%float, 2.375%float).

(** The sensors that are registered at every place, numbered. *)
Definition sensor_number (sensor_name : string) : option Z :=
  if decide (sensor_name = "temperature") then Some 1
  else if decide (sensor_name = "wind speed") then Some 2
  else if decide (sensor_name = "cloud cover") then Some 3
  else if decide (sensor_name = "irradiance") then Some 4
  else None.

(** A registry that has these four sensors at every place, with hourly
    resolution and an id of their own each: 521 to 524 north of the fiftieth
    parallel, 481 to 484 south of it. *)
Definition registry (loc : location) (max_degree : num) (sensor_name : string)
    : option Sensor.t :=
  n ← sensor_number sensor_name;
  Some {| Sensor.id := (if (fst loc <? 50)%float then 480 else 520) + n;
          Sensor.name := sensor_name;
          Sensor.event_resolution := one_hour |}.

Definition hourly (dt : Z) (temp : float) (clouds : Z) : forecast :=
  list_to_map [("dt", VNum (NInt dt)); ("temp", VNum (NFloat temp));
               ("wind_speed", VNum (NFloat 4.5)); ("clouds", VNum (NInt clouds))].

Definition two_hours : list forecast :=
  [hourly 1700000000 11.5 40; hourly 1700003600 12 75].

Definition microseconds (ts : num) : result datetime :=
  match ts with
  | NInt z => inr (z * 1000000)
  | NFloat _ => inl TypeError
  end.

(** The server clock reads 23 seconds after the minute of the provider's
    call time. *)
Definition world (table : list sensor_spec) : env :=
  {| mapping := table;
     max_degree_difference_for_nearest_weather_sensor := NInt 1;
     server_now := λ k, 1700000123000000 + Z.of_nat k;
     call_api := λ k key loc, inr (1700000100000000, two_hours);
     as_server_time_fromtimestamp := microseconds;
     find_weather_sensor_by_location := registry;
     compute_irradiance := λ lat lon t ratio, (1000 * (1 - ratio))%float;
     save_to_db := λ beliefs, "success" |}.

Definition first_hour : forecast := hourly 1700000000 11.5 40.

(** The same hour, as a provider that leaves out the wind would send it. *)
Definition windless_hour : forecast := delete "wind_speed" first_hour.

Definition first_start : datetime := 1700000000000000.

Definition noon : datetime := 1700000123000000.

(** The variables at the start of the first hour of a location. *)
Definition fresh : frame :=
  {| weather_sensors := ∅; db_forecasts := []; data_source := OwmSource |}.

Definition sensor_at_utrecht (sensor_name : string) : Sensor.t :=
  {| Sensor.id := 520 + default 0 (sensor_number sensor_name);
     Sensor.name := sensor_name;
     Sensor.event_resolution := one_hour |}.

(** A table that lists irradiance before another sensor. *)
Definition irradiance_first : list sensor_spec :=
  [spec "irradiance" "clouds"; spec "temperature" "temp"].

(** A table whose temperature sensor is declared with a resolution of a
    quarter of an hour, against the hourly sensors of the registry. *)
Definition quarter_hourly : list sensor_spec :=
  [spec "wind speed" "wind_speed";
   {| fm_sensor_name := "temperature"; weather_sensor_name := "temp";
      sensor_unit := ""; event_resolution := 900000000 |}].

(** A WeatherAPI hour as the provider sends it, with the given condition
    text. *)
Definition wapi (t : string) : wapi_hour :=
  {| time_epoch := VNum (NInt 1700000000); temp_c := VNum (NFloat 12.5);
     feelslike_c := VNum (NFloat 11); pressure_mb := VNum (NInt 1012);
     humidity := VNum (NInt 80); dewpoint_c := VNum (NFloat 9);
     uv := VNum (NInt 1); cloud := VNum (NInt 75);
     vis_km := NFloat 10; wind_kph := NFloat 36;
     wind_degree := VNum (NInt 180); gust_kph := NInt 36;
     cond := {| code := VNum (NInt 1003); text := t; icon := VStr "116.png" |};
     chance_of_rain := NInt 50 |}.

Definition day (t : string) : forecastday := {| hour := replicate 24 (wapi t) |}.

Definition sunny_days : list forecastday := [day "Sunny"; day "Partly cloudy"; day "Mist"].

(** Three days of 24 hours, the second of which has no condition text. *)
Definition blank_days : list forecastday := [day "Sunny"; day "  "; day "Mist"].

(** An hour whose numbers are all floats and whose condition text is a run of
    white space. *)
Definition float_hour : wapi_hour :=
  {| time_epoch := VNum (NInt 1700000000); temp_c := VNum (NFloat 12.5);
     feelslike_c := VNum (NFloat 11); pressure_mb := VNum (NFloat 1012);
     humidity := VNum (NInt 80); dewpoint_c := VNum (NFloat 9);
     uv := VNum (NFloat 1); cloud := VNum (NInt 75);
     vis_km := NFloat 10; wind_kph := NFloat 36;
     wind_degree := VNum (NInt 180); gust_kph := NFloat 54;
     cond := {| code := VNum (NInt 1000); text := String "009" " ";
                icon := VStr "113.png" |};
     chance_of_rain := NFloat 0 |}.

(** An hour that carries its timestamp and none of the fields of the table. *)
Definition bare_hour : forecast := {[ "dt" := VNum (NInt 1700000000) ]}.

(** An hour without a timestamp. *)
Definition undated_hour : forecast := delete "dt" first_hour.

(** A world whose dispatcher fails for the second location, and one whose
    second hour has no timestamp. *)
Definition failing_world : env :=
  {| mapping := table;
     max_degree_difference_for_nearest_weather_sensor := NInt 1;
     server_now := λ k, 1700000123000000;
     call_api := λ k key loc,
       if decide (k = 1%nat) then inl AssertionError
       else inr (1700000100000000, two_hours);
     as_server_time_fromtimestamp := microseconds;
     find_weather_sensor_by_location := registry;
     compute_irradiance := λ lat lon t ratio, (1000 * (1 - ratio))%float;
     save_to_db := λ beliefs, "success" |}.

Definition undated_world : env :=
  {| mapping := table;
     max_degree_difference_for_nearest_weather_sensor := NInt 1;
     server_now := λ k, 1700000123000000;
     call_api := λ k key loc, inr (1700000100000000, [first_hour; undated_hour]);
     as_server_time_fromtimestamp := microseconds;
     find_weather_sensor_by_location := registry;
     compute_irradiance := λ lat lon t ratio, (1000 * (1 - ratio))%float;
     save_to_db := λ beliefs, "success" |}.

(** A registry that knows no sensor. *)
Definition empty_world : env :=
  {| mapping := table;
     max_degree_difference_for_nearest_weather_sensor := NInt 1;
     server_now := λ k, 1700000123000000;
     call_api := λ k key loc, inr (1700000100000000, two_hours);
     as_server_time_fromtimestamp := microseconds;
     find_weather_sensor_by_location := λ loc max_degree sensor_name, None;
     compute_irradiance := λ lat lon t ratio, (1000 * (1 - ratio))%float;
     save_to_db := λ beliefs, "success" |}.

(** A table that names a sensor twice. *)
Definition doubled : list sensor_spec :=
  [spec "temperature" "temp";
   {| fm_sensor_name := "temperature"; weather_sensor_name := "feels_like";
      sensor_unit := ""; event_resolution := one_hour |}].

(** A WeatherAPI answer of three sunny days, seen at eleven at night in the
    zone of the place, and a network that gives it with a given status. *)
Definition wapi_answer : Provider.wapi_data :=
  {| Provider.location_localtime_epoch := 1700000100;
     Provider.location_tz_id := "Europe/Amsterdam";
     Provider.forecast_forecastday := sunny_days |}.

Definition wires (provider : string) (status : Z) : Provider.network :=
  {| Provider.WEATHER_PROVIDER := provider;
     Provider.get_openweathermap := λ k key loc,
       {| Provider.status_code := status;
          Provider.json := {| Provider.current_dt := NInt 1700000100;
                              Provider.hourly := two_hours |} |};
     Provider.get_weatherapi := λ k key loc days,
       {| Provider.status_code := status; Provider.json := wapi_answer |};
     Provider.local_hour := λ tz ts, inr 23;
     Provider.replace_second_microsecond := λ t, t - t `mod` 60000000 |}.

(** A world whose provider leaves the wind out of the first of two hours. *)
Definition windless_world : env :=
  {| mapping := table;
     max_degree_difference_for_nearest_weather_sensor := NInt 1;
     server_now := λ k, 1700000123000000;
     call_api := λ k key loc,
       inr (1700000100000000, [windless_hour; hourly 1700003600 12 75]);
     as_server_time_fromtimestamp := microseconds;
     find_weather_sensor_by_location := registry;
     compute_irradiance := λ lat lon t ratio, (1000 * (1 - ratio))%float;
     save_to_db := λ beliefs, "success" |}.

(** An hour with 16.1 km of visibility, a wind and gusts of 3 kph and a
    chance of rain of 7 percent. *)
Definition light_wind : wapi_hour :=
  {| time_epoch := VNum (NInt 1700000000); temp_c := VNum (NFloat 12.5);
     feelslike_c := VNum (NFloat 11); pressure_mb := VNum (NInt 1012);
     humidity := VNum (NInt 80); dewpoint_c := VNum (NFloat 9);
     uv := VNum (NInt 1); cloud := VNum (NInt 75);
     vis_km := NFloat 0x1.019999999999ap+4; wind_kph := NFloat 3;
     wind_degree := VNum (NInt 180); gust_kph := NInt 3;
     cond := {| code := VNum (NInt 1000); text := "Sunny"; icon := VStr "113.png" |};
     chance_of_rain := NInt 7 |}.

End Fixture.

(** * Properties *)

(** ** Results and lists *)

Section map_result.
Context {A B : Type} (f : A → result B).

Lemma map_result_length l out :
  map_result f l = inr out → length out = length l.
Proof.
  revert out. induction l as [|x l IH]; intros out; simpl.
  - by intros [= <-].
  - destruct (f x) as [e|y]; simpl; [done|].
    destruct (map_result f l) as [e|ys]; simpl; [done|].
    intros [= <-]. simpl. f_equal. by apply IH.
Qed.

Lemma map_result_lookup l out i x :
  map_result f l = inr out → l !! i = Some x →
  ∃ y, out !! i = Some y ∧ f x = inr y.
Proof.
  revert out i. induction l as [|x' l IH]; intros out i; simpl; [done|].
  destruct (f x') as [e|y] eqn:Hy; simpl; [done|].
  destruct (map_result f l) as [e|ys]; simpl; [done|].
  intros [= <-]. destruct i as [|i]; simpl.
  - intros [= ->]. eauto.
  - intros Hi. by apply IH.
Qed.

Lemma map_result_ok l :
  Forall (λ x, is_ok (f x) = true) l → ∃ out, map_result f l = inr out.
Proof.
  induction 1 as [|x l Hx _ [out IH]]; simpl; [by eexists|].
  destruct (f x) as [e|y]; [done|]. rewrite IH. simpl. by eexists.
Qed.

Lemma map_result_raises l x e :
  x ∈ l → f x = inl e → ∃ e', map_result f l = inl e'.
Proof.
  intros Hin Hx. induction Hin as [x l|x x' l _ IH]; simpl.
  - rewrite Hx. simpl. by eexists.
  - destruct (f x') as [e'|y]; simpl; [by eexists|].
    destruct (IH Hx) as [e' ->]. simpl. by eexists.
Qed.

(** When every element either maps or raises [e], and one raises, the
    comprehension raises [e]. *)
Lemma map_result_raises_only l e :
  Forall (λ x, is_ok (f x) = true ∨ f x = inl e) l →
  Exists (λ x, f x = inl e) l →
  map_result f l = inl e.
Proof.
  induction 1 as [|x l Hx Hl IH]; intros Hex; [by apply Exists_nil in Hex|].
  simpl. destruct Hx as [Hx| ->]; [|done].
  destruct (f x) as [e'|y] eqn:Hy; [done|]. simpl.
  apply Exists_cons in Hex as [Hex|Hex]; [congruence|].
  by rewrite IH.
Qed.
End map_result.

(** ** Slices *)

Lemma slice_window {A} (l : list A) (h : Z) :
  0 ≤ h → h + 48 ≤ Z.of_nat (length l) →
  slice l h (h + 48) = take 48 (drop (Z.to_nat h) l).
Proof.
  intros Hh Hlen. unfold slice, slice_bound.
  destruct (Z.ltb_spec h 0); [lia|]. destruct (Z.ltb_spec (h + 48) 0); [lia|].
  rewrite !Z.min_l by lia. by replace (h + 48 - h) with 48 by lia.
Qed.

Lemma slice_window_length {A} (l : list A) (h : Z) :
  0 ≤ h → h + 48 ≤ Z.of_nat (length l) → length (slice l h (h + 48)) = 48%nat.
Proof.
  intros. rewrite slice_window by done.
  rewrite length_take, length_drop. lia.
Qed.

Lemma slice_window_lookup {A} (l : list A) (h : Z) (i : nat) :
  0 ≤ h → h + 48 ≤ Z.of_nat (length l) → (i < 48)%nat →
  slice l h (h + 48) !! i = l !! (Z.to_nat h + i)%nat.
Proof.
  intros. rewrite slice_window by done.
  rewrite lookup_take_lt by done. by rewrite lookup_drop.
Qed.

(** ** The normaliser *)

Lemma py_mul_1000 n : py_mul n (NInt 1000) = inr (times_1000 n).
Proof. by destruct n. Qed.

Lemma map_weather_api_to_owm_ok e :
  has_word e → divisions_defined e → is_ok (map_weather_api_to_owm e) = true.
Proof.
  unfold has_word, divisions_defined, map_weather_api_to_owm.
  intros Hword (Hwind & Hgust & Hpop). rewrite py_mul_1000. simpl.
  destruct (py_truediv (wind_kph e) _); [done|]. simpl.
  destruct (py_truediv (gust_kph e) _); [done|]. simpl.
  destruct (split (text (cond e))); [done|]. simpl.
  by destruct (py_truediv (chance_of_rain e) _).
Qed.

Lemma map_weather_api_to_owm_blank e :
  split (text (cond e)) = [] →
  (∃ err, map_weather_api_to_owm e = inl err) ∧
  (divisions_defined e → map_weather_api_to_owm e = inl IndexError).
Proof.
  unfold divisions_defined, map_weather_api_to_owm. intros Hblank.
  rewrite py_mul_1000, Hblank. simpl.
  destruct (py_truediv (wind_kph e) _); simpl.
  { split; [by eexists|]. by intros (? & _). }
  destruct (py_truediv (gust_kph e) _); simpl.
  { split; [by eexists|]. by intros (_ & ? & _). }
  split; [by eexists|done].
Qed.

Lemma combined_lookup (d1 d2 d3 : forecastday) (h : Z) :
  length (hour d1) = 24%nat → length (hour d2) = 24%nat →
  length (hour d3) = 24%nat → 0 ≤ h < 24 →
  h + 48 ≤ Z.of_nat (length (hour d1 ++ hour d2 ++ hour d3)).
Proof. intros H1 H2 H3 Hh. rewrite !length_app, H1, H2, H3. lia. Qed.

(** The normalised hour carries [vis_km * 1000], [wind_kph / 3.6],
    [gust_kph / 3.6] and [chance_of_rain / 100], computed with Python's
    arithmetic. *)
Lemma map_weather_api_to_owm_fields e g :
  map_weather_api_to_owm e = inr g →
  g !! "visibility" = Some (VNum (times_1000 (vis_km e))) ∧
  (∃ w, py_truediv (wind_kph e) (NFloat f3_6) = inr w ∧
        g !! "wind_speed" = Some (VNum (NFloat w))) ∧
  (∃ w, py_truediv (gust_kph e) (NFloat f3_6) = inr w ∧
        g !! "wind_gust" = Some (VNum (NFloat w))) ∧
  (∃ p, py_truediv (chance_of_rain e) (NInt 100) = inr p ∧
        g !! "pop" = Some (VNum (NFloat p))).
Proof.
  unfold map_weather_api_to_owm. rewrite py_mul_1000. simpl.
  destruct (py_truediv (wind_kph e) _) as [|w]; simpl; [done|].
  destruct (py_truediv (gust_kph e) _) as [|u]; simpl; [done|].
  destruct (index _ 0) as [|m]; simpl; [done|].
  destruct (py_truediv (chance_of_rain e) _) as [|p]; simpl; [done|].
  intros [= <-]. repeat split; eauto.
Qed.

Lemma kph_table kph : 0 ≤ kph ≤ 1000 → kph_agrees kph = true.
Proof.
  intros Hkph.
  assert (forallb kph_agrees (seqZ 0 1001) = true) as Htable
    by (vm_compute; reflexivity).
  rewrite forallb_forall in Htable. apply Htable.
  apply list_elem_of_In, elem_of_seqZ. lia.
Qed.

Lemma percent_table percent : 0 ≤ percent ≤ 100 → percent_agrees percent = true.
Proof.
  intros Hpercent.
  assert (forallb percent_agrees (seqZ 0 101) = true) as Htable
    by (vm_compute; reflexivity).
  rewrite forallb_forall in Htable. apply Htable.
  apply list_elem_of_In, elem_of_seqZ. lia.
Qed.

Lemma kph_exact g key kph w :
  0 ≤ kph ≤ 1000 →
  py_truediv (NInt kph) (NFloat f3_6) = inr w →
  g !! key = Some (VNum (NFloat w)) →
  converted g key (NInt kph) (λ q, q / (36 # 10))%Q = (kph mod 9 =? 0).
Proof.
  intros Hkph Hw Hkey. pose proof (kph_table kph Hkph) as Htable.
  unfold kph_agrees in Htable. rewrite Hw in Htable.
  unfold converted. rewrite Hkey. simpl. by apply eqb_prop.
Qed.

(** C6 as stated fails: the normaliser maps the hour, and none of the four
    outputs is the exact product or quotient: 16.1 km gives
    16100.000000000002 m, 3 kph gives 0.83333333333333326 m/s and 7 percent
    gives 0.070000000000000007. *)
Lemma unit_conversions_counterexample :
  ∃ g, map_weather_api_to_owm Fixture.light_wind = inr g ∧
       g !! "visibility" = Some (VNum (NFloat 0x1.f720000000001p+13)) ∧
       visibility_exact Fixture.light_wind g = false ∧
       g !! "wind_speed" = Some (VNum (NFloat 0x1.aaaaaaaaaaaaap-1)) ∧
       wind_speed_exact Fixture.light_wind g = false ∧
       g !! "wind_gust" = Some (VNum (NFloat 0x1.aaaaaaaaaaaaap-1)) ∧
       wind_gust_exact Fixture.light_wind g = false ∧
       g !! "pop" = Some (VNum (NFloat 0x1.1eb851eb851ecp-4)) ∧
       pop_exact Fixture.light_wind g = false.
Proof.
  destruct (map_weather_api_to_owm Fixture.light_wind) as [err|g] eqn:Hg;
    [by vm_compute in Hg|].
  exists g. split; [done|].
  destruct (map_weather_api_to_owm_fields _ g Hg)
    as (Hvis & (w & Hw & Hwind) & (u & Hu & Hgust) & (p & Hp & Hpop)).
  vm_compute in Hw, Hu, Hp.
  injection Hw as <-. injection Hu as <-. injection Hp as <-.
  unfold visibility_exact, wind_speed_exact, wind_gust_exact, pop_exact, converted.
  rewrite Hvis, Hwind, Hgust, Hpop.
  repeat split; vm_compute; reflexivity.
Qed.

(** C6, amended: the outputs of a mapped hour are the binary64 results of
    [vis_km * 1000], [wind_kph / 3.6], [gust_kph / 3.6] and
    [chance_of_rain / 100].  The visibility is the exact product whenever
    [vis_km] is an integer; for an integer speed between 0 and 1000 kph the
    quotient is exact just when the speed is a multiple of 9, and for an
    integer chance of rain between 0 and 100 just when it is a multiple of
    25; and the floats 10 km, 36 kph and 50 percent are converted exactly,
    to 10000 m, 10 m/s and 0.5. *)
Theorem unit_conversions_exact e g :
  map_weather_api_to_owm e = inr g →
  (g !! "visibility" = Some (VNum (times_1000 (vis_km e))) ∧
   (∃ w, py_truediv (wind_kph e) (NFloat f3_6) = inr w ∧
         g !! "wind_speed" = Some (VNum (NFloat w))) ∧
   (∃ w, py_truediv (gust_kph e) (NFloat f3_6) = inr w ∧
         g !! "wind_gust" = Some (VNum (NFloat w))) ∧
   (∃ p, py_truediv (chance_of_rain e) (NInt 100) = inr p ∧
         g !! "pop" = Some (VNum (NFloat p)))) ∧
  (∀ km, vis_km e = NInt km → visibility_exact e g = true) ∧
  (∀ kph, 0 ≤ kph ≤ 1000 → wind_kph e = NInt kph →
     wind_speed_exact e g = (kph mod 9 =? 0)) ∧
  (∀ kph, 0 ≤ kph ≤ 1000 → gust_kph e = NInt kph →
     wind_gust_exact e g = (kph mod 9 =? 0)) ∧
  (∀ percent, 0 ≤ percent ≤ 100 → chance_of_rain e = NInt percent →
     pop_exact e g = (percent mod 25 =? 0)) ∧
  (vis_km e = NFloat 10 →
     g !! "visibility" = Some (VNum (NFloat 10000)) ∧ visibility_exact e g = true) ∧
  (wind_kph e = NFloat 36 →
     g !! "wind_speed" = Some (VNum (NFloat 10)) ∧ wind_speed_exact e g = true) ∧
  (gust_kph e = NFloat 36 →
     g !! "wind_gust" = Some (VNum (NFloat 10)) ∧ wind_gust_exact e g = true) ∧
  (chance_of_rain e = NFloat 50 →
     g !! "pop" = Some (VNum (NFloat 0.5)) ∧ pop_exact e g = true).
Proof.
  intros Hg. split; [by apply map_weather_api_to_owm_fields|].
  destruct (map_weather_api_to_owm_fields _ g Hg)
    as (Hvis & (w & Hw & Hwind) & (u & Hu & Hgust) & (p & Hp & Hpop)).
  unfold visibility_exact, wind_speed_exact, wind_gust_exact, pop_exact.
  split_and!.
  - intros km Hkm. unfold converted. rewrite Hvis, Hkm. simpl.
    unfold has_value. simpl. apply Qeq_bool_iff. unfold Qeq. simpl. lia.
  - intros kph Hkph Hin. rewrite Hin in Hw |- *. by apply (kph_exact g _ kph w).
  - intros kph Hkph Hin. rewrite Hin in Hu |- *. by apply (kph_exact g _ kph u).
  - intros percent Hpercent Hin. rewrite Hin in Hp |- *.
    pose proof (percent_table percent Hpercent) as Htable.
    unfold percent_agrees in Htable. rewrite Hp in Htable.
    unfold converted. rewrite Hpop. simpl. by apply eqb_prop.
  - intros Hin. split; [by rewrite Hvis, Hin|].
    unfold converted. rewrite Hvis, Hin. vm_compute. reflexivity.
  - intros Hin. rewrite Hin in Hw. vm_compute in Hw. injection Hw as <-.
    split; [done|]. unfold converted. rewrite Hwind, Hin. vm_compute. reflexivity.
  - intros Hin. rewrite Hin in Hu. vm_compute in Hu. injection Hu as <-.
    split; [done|]. unfold converted. rewrite Hgust, Hin. vm_compute. reflexivity.
  - intros Hin. rewrite Hin in Hp. vm_compute in Hp. injection Hp as <-.
    split; [done|]. unfold converted. rewrite Hpop, Hin. vm_compute. reflexivity.
Qed.

Lemma unit_conversions_exact_witness :
  ∃ g, map_weather_api_to_owm (Fixture.wapi "Sunny") = inr g ∧
       g !! "visibility" = Some (VNum (NFloat 10000)) ∧
       visibility_exact (Fixture.wapi "Sunny") g = true ∧
       g !! "wind_speed" = Some (VNum (NFloat 10)) ∧
       wind_speed_exact (Fixture.wapi "Sunny") g = true ∧
       wind_gust_exact (Fixture.wapi "Sunny") g = true ∧
       pop_exact (Fixture.wapi "Sunny") g = true.
Proof.
  destruct (map_weather_api_to_owm (Fixture.wapi "Sunny")) as [err|g] eqn:Hg;
    [by vm_compute in Hg|].
  exists g. split; [done|].
  destruct (unit_conversions_exact _ g Hg)
    as (_ & _ & _ & Hgust & Hpop & Hvis & Hwind & _ & _).
  destruct (Hvis eq_refl) as [Hvis1 Hvis2].
  destruct (Hwind eq_refl) as [Hwind1 Hwind2].
  repeat split; try done.
  - apply (Hgust 36); [lia|reflexivity].
  - apply (Hpop 50); [lia|reflexivity].
Defined.

(** C2, amended: on three days of 24 hours and an hour index in [0, 24), when
    every hour of the window has a condition text with a first word and
    divisions that do not overflow, the normaliser returns 48 entries, the
    [i]-th of which is the image of entry [h + i] of the 72 concatenated
    hours. *)
Theorem process_weatherapi_data_window (d1 d2 d3 : forecastday) (h : Z) :
  length (hour d1) = 24%nat → length (hour d2) = 24%nat →
  length (hour d3) = 24%nat → 0 ≤ h < 24 →
  Forall (λ e, has_word e ∧ divisions_defined e)
    (slice (hour d1 ++ hour d2 ++ hour d3) h (h + 48)) →
  ∃ out, process_weatherapi_data [d1; d2; d3] h = inr out ∧
    length out = 48%nat ∧
    ∀ i, (i < 48)%nat →
      ∃ e y, (hour d1 ++ hour d2 ++ hour d3) !! (Z.to_nat h + i)%nat = Some e ∧
             map_weather_api_to_owm e = inr y ∧ out !! i = Some y.
Proof.
  intros H1 H2 H3 Hh Hwin.
  pose proof (combined_lookup d1 d2 d3 h H1 H2 H3 Hh) as Hlen.
  unfold process_weatherapi_data. simpl.
  destruct (map_result_ok map_weather_api_to_owm
              (slice (hour d1 ++ hour d2 ++ hour d3) h (h + 48))) as [out Hout].
  { eapply Forall_impl; [exact Hwin|]. intros e [? ?].
    by apply map_weather_api_to_owm_ok. }
  exists out. split; [done|]. split.
  { rewrite (map_result_length _ _ _ Hout). apply slice_window_length; lia. }
  intros i Hi.
  destruct (lookup_lt_is_Some_2 (slice (hour d1 ++ hour d2 ++ hour d3) h (h + 48)) i)
    as [e He].
  { rewrite slice_window_length by lia. done. }
  destruct (map_result_lookup _ _ _ _ _ Hout He) as (y & Hy & Hmap).
  exists e, y. rewrite <- slice_window_lookup by lia. done.
Qed.

Lemma process_weatherapi_data_window_witness :
  ∃ out, process_weatherapi_data Fixture.sunny_days 23 = inr out ∧
    length out = 48%nat ∧
    ∀ i, (i < 48)%nat →
      ∃ e y, (hour (Fixture.day "Sunny") ++ hour (Fixture.day "Partly cloudy")
                ++ hour (Fixture.day "Mist")) !! (Z.to_nat 23 + i)%nat = Some e ∧
             map_weather_api_to_owm e = inr y ∧ out !! i = Some y.
Proof.
  apply (process_weatherapi_data_window
           (Fixture.day "Sunny") (Fixture.day "Partly cloudy") (Fixture.day "Mist") 23);
    [reflexivity | reflexivity | reflexivity | lia |].
  apply (bool_decide_unpack _). vm_compute. reflexivity.
Defined.

(** C2 as stated fails: three days of 24 hours, hour index 5, and the
    normaliser raises instead of returning 48 entries, because an hour of the
    window has a blank condition text. *)
Lemma process_weatherapi_data_blank_counterexample :
  Forall (λ d, length (hour d) = 24%nat) Fixture.blank_days ∧
  length Fixture.blank_days = 3%nat ∧
  0 ≤ 5 < 24 ∧
  process_weatherapi_data Fixture.blank_days 5 = inl IndexError.
Proof.
  split; [by repeat constructor|]. split; [done|]. split; [lia|].
  by vm_compute.
Qed.

(** C10: on three days of 24 hours and an hour index in [0, 24), an hour of
    the window whose condition text has no word makes the normaliser raise
    instead of returning its 48 entries; the exception is the index error of
    taking the first word whenever the divisions of the window are defined. *)
Theorem blank_condition_text_raises (d1 d2 d3 : forecastday) (h : Z) :
  length (hour d1) = 24%nat → length (hour d2) = 24%nat →
  length (hour d3) = 24%nat → 0 ≤ h < 24 →
  Exists (λ e, split (text (cond e)) = [])
    (slice (hour d1 ++ hour d2 ++ hour d3) h (h + 48)) →
  (∃ err, process_weatherapi_data [d1; d2; d3] h = inl err) ∧
  (Forall divisions_defined (slice (hour d1 ++ hour d2 ++ hour d3) h (h + 48)) →
   process_weatherapi_data [d1; d2; d3] h = inl IndexError).
Proof.
  intros _ _ _ _ Hblank. unfold process_weatherapi_data. simpl.
  set (window := slice (hour d1 ++ hour d2 ++ hour d3) h (h + 48)) in *.
  split.
  - apply Exists_exists in Hblank as (e & Hin & He).
    destruct (map_weather_api_to_owm_blank e He) as [[err Herr] _].
    by eapply map_result_raises.
  - intros Hdiv. apply map_result_raises_only.
    + eapply Forall_impl; [exact Hdiv|]. intros e He. simpl.
      destruct (decide (has_word e)) as [Hw|Hw].
      * left. by apply map_weather_api_to_owm_ok.
      * right. apply map_weather_api_to_owm_blank; [|done].
        unfold has_word in Hw.
        destruct (split (text (cond e))); [done|by destruct Hw].
    + apply Exists_exists in Hblank as (e & Hin & He).
      apply Exists_exists. exists e. split; [done|].
      apply map_weather_api_to_owm_blank; [done|].
      by apply (proj1 (Forall_forall _ _) Hdiv).
Qed.

Lemma blank_condition_text_raises_witness :
  process_weatherapi_data Fixture.blank_days 5 = inl IndexError.
Proof.
  apply (blank_condition_text_raises
           (Fixture.day "Sunny") (Fixture.day "  ") (Fixture.day "Mist") 5);
    [reflexivity | reflexivity | reflexivity | lia | |].
  - apply (bool_decide_unpack _). vm_compute. reflexivity.
  - apply (bool_decide_unpack _). vm_compute. reflexivity.
Defined.

(** ** Running the assembler *)

Section post.
Context {A : Type}.
Implicit Types (m : M A) (tr : list event).

Lemma post_ret (a : A) tr Ok Err : Ok a tr → post (mret a) tr Ok Err.
Proof. done. Qed.

Lemma post_raise e tr Ok Err : Err tr → post (raise e : M A) tr Ok Err.
Proof. done. Qed.

Lemma post_lift (r : result A) tr Ok Err :
  (∀ a, r = inr a → Ok a tr) → Err tr → post (lift r) tr Ok Err.
Proof. intros HOk HErr. unfold post, lift. destruct r; auto. Qed.

Lemma post_mono m tr (Ok Ok' : A → list event → Prop) (Err Err' : list event → Prop) :
  post m tr Ok Err →
  (∀ a tr', Ok a tr' → Ok' a tr') → (∀ tr', Err tr' → Err' tr') →
  post m tr Ok' Err'.
Proof. unfold post. destruct (m tr) as [[e|a] tr']; auto. Qed.

Lemma post_bind {B} m (k : A → M B) tr Mid Ok Err :
  post m tr Mid Err →
  (∀ a tr', Mid a tr' → post (k a) tr' Ok Err) →
  post (m ≫= k) tr Ok Err.
Proof.
  unfold post, mbind, M_bind. destruct (m tr) as [[e|a] tr']; [done|].
  intros Hm Hk. by apply Hk.
Qed.
End post.

Lemma post_emit ev tr (Ok : () → list event → Prop) Err :
  Ok () (tr ++ [ev]) → post (emit ev) tr Ok Err.
Proof. done. Qed.

(** A loop keeps what each of its rounds keeps. *)
Lemma post_foldM {A B} (f : A → B → M A) (I : A → list event → Prop)
    (Err : list event → Prop) (l : list B) :
  (∀ a x tr, x ∈ l → I a tr → post (f a x) tr I Err) →
  ∀ a tr, I a tr → post (foldM f a l) tr I Err.
Proof.
  induction l as [|x l IH]; intros Hstep a tr Ha; simpl; [done|].
  eapply post_bind.
  - apply Hstep; [by left|done].
  - intros a' tr' Ha'. apply IH; [|done].
    intros a'' y tr'' Hy. apply Hstep. by right.
Qed.

(** A loop raises if one of its rounds always does. *)
Lemma foldM_raises {A B} (f : A → B → M A) (I : A → Prop) (l : list B) (x : B) :
  x ∈ l →
  (∀ a y tr, I a → post (f a y) tr (λ a' _, I a') (λ _, True)) →
  (∀ a tr, I a → is_ok (f a x tr).1 = false) →
  ∀ a tr, I a → is_ok (foldM f a l tr).1 = false.
Proof.
  intros Hin Hkeep Hraise. induction Hin as [x l|x y l _ IH]; intros a tr Ha; simpl.
  - specialize (Hraise a tr Ha). unfold mbind, M_bind.
    by destruct (f a x tr) as [[e|a'] tr'].
  - specialize (Hkeep a y tr Ha). unfold post in Hkeep. unfold mbind, M_bind.
    destruct (f a y tr) as [[e|a'] tr']; [done|]. by apply IH.
Qed.

(** ** The belief batches *)

Lemma batch_of_app_absent s db db' :
  s ∉ db.*1 → batch_of s (db ++ db') = batch_of s db'.
Proof.
  induction db as [|[s' bs] db IH]; simpl; [done|].
  intros Hnot. apply not_elem_of_cons in Hnot as [Hne Hnot].
  destruct (decide (s' = s)); [congruence|]. by apply IH.
Qed.

Lemma batch_of_absent s db : s ∉ db.*1 → batch_of s db = [].
Proof.
  intros Hnot. rewrite <- (app_nil_r db). by rewrite batch_of_app_absent.
Qed.

Lemma batch_of_append s b db :
  s ∈ db.*1 → batch_of s (db_append s b db) = batch_of s db ++ [b].
Proof.
  induction db as [|[s' bs] db IH]; simpl; [by intros ?%elem_of_nil|].
  intros Hin. destruct (decide (s' = s)) as [->|Hne]; simpl.
  - by rewrite decide_True.
  - rewrite decide_False by done. apply IH.
    apply elem_of_cons in Hin as [Heq|Hin]; [congruence|done].
Qed.

Lemma db_ensure_elem s db : s ∈ (db_ensure s db).*1.
Proof.
  unfold db_ensure. destruct (decide (s ∈ db.*1)); [done|].
  rewrite fmap_app. apply elem_of_app. right. by left.
Qed.

Lemma batch_of_ensure s db : batch_of s (db_ensure s db) = batch_of s db.
Proof.
  unfold db_ensure. destruct (decide (s ∈ db.*1)) as [|Hnot]; [done|].
  rewrite batch_of_app_absent by done. simpl. rewrite decide_True by done.
  by rewrite batch_of_absent.
Qed.

(** The statements at lines 270 to 296 put the new belief at the end of the
    batch of its sensor. *)
Lemma batch_of_append_ensure s b db :
  batch_of s (db_append s b (db_ensure s db)) = batch_of s db ++ [b].
Proof.
  rewrite batch_of_append by apply db_ensure_elem. by rewrite batch_of_ensure.
Qed.

Lemma all_beliefs_append (P : TimedBelief → Prop) s b db :
  all_beliefs P db → P b → all_beliefs P (db_append s b db).
Proof.
  unfold all_beliefs. intros Hdb Hb.
  induction Hdb as [|[s' bs] db Hbs Hdb IH]; simpl; [done|].
  destruct (decide (s' = s)); constructor; simpl in *; try done.
  apply Forall_app. split; [done|]. by constructor.
Qed.

Lemma all_beliefs_ensure (P : TimedBelief → Prop) s db :
  all_beliefs P db → all_beliefs P (db_ensure s db).
Proof.
  unfold all_beliefs, db_ensure. intros Hdb.
  destruct (decide (s ∈ db.*1)); [done|].
  apply Forall_app. split; [done|]. by repeat constructor.
Qed.

(** ** The sensor resolver *)

Section resolver.
Context (E : env) (loc : location).
Implicit Types (ws : gmap string (option Sensor.t)) (tr : list event).

Local Abbreviation max_degree := (max_degree_difference_for_nearest_weather_sensor E).

(** What a successful call returns, and what it does to the cache. *)
Lemma get_weather_sensor_inv sp ws tr v ws' tr' :
  get_weather_sensor E sp loc ws max_degree tr = (inr (v, ws'), tr') →
  v = resolved E loc ws (fm_sensor_name sp) ∧
  (∀ n, resolved E loc ws' n = resolved E loc ws n) ∧
  (∀ s, v = Some s → Sensor.event_resolution s = event_resolution sp).
Proof.
  unfold get_weather_sensor, resolved, mbind, M_bind, emit, mret, M_ret, raise.
  destruct (ws !! fm_sensor_name sp) as [c|] eqn:Hc.
  - destruct c as [s|]; [destruct (decide _) as [Hne|Heq]; [done|]|];
      intros [= <- <- <-]; (split; [done|]); (split; [done|]).
    + intros s' [= <-]. by apply dec_stable.
    + done.
  - destruct (find_weather_sensor_by_location E loc _ _) as [s|] eqn:Hfind;
      [destruct (decide _) as [Hne|Heq]; [done|]|];
      intros [= <- <- <-]; (split; [done|]); split.
    + intros n. destruct (decide (fm_sensor_name sp = n)) as [<-|Hn].
      * by rewrite lookup_insert_eq, Hc.
      * by rewrite lookup_insert_ne.
    + intros s' [= <-]. by apply dec_stable.
    + intros n. destruct (decide (fm_sensor_name sp = n)) as [<-|Hn].
      * by rewrite lookup_insert_eq, Hc.
      * by rewrite lookup_insert_ne.
    + done.
Qed.

(** A sensor of another resolution than the specification declares makes
    the resolver raise, whether it comes from the cache or the registry. *)
Lemma get_weather_sensor_mismatch sp ws tr s :
  resolved E loc ws (fm_sensor_name sp) = Some s →
  Sensor.event_resolution s ≠ event_resolution sp →
  is_ok (get_weather_sensor E sp loc ws max_degree tr).1 = false.
Proof.
  unfold get_weather_sensor, resolved, mbind, M_bind, emit, mret, M_ret, raise.
  intros Hres Hne. destruct (ws !! fm_sensor_name sp) as [c|].
  - subst c. by rewrite decide_True.
  - rewrite Hres. by rewrite decide_True.
Qed.
End resolver.

(** ** One sensor specification of one hour *)

Section process_spec.
Context (E : env) (loc : location) (now : datetime).
Context (fc : forecast) (fc_datetime : datetime).
Implicit Types (fr : frame) (sp : sensor_spec) (tr : list event).

Local Abbreviation max_degree := (max_degree_difference_for_nearest_weather_sensor E).

Lemma process_specs_app fr pre post' tr :
  process_specs E loc now fc fc_datetime fr (pre ++ post') tr =
  match process_specs E loc now fc fc_datetime fr pre tr with
  | (inr fr1, tr1) => process_specs E loc now fc fc_datetime fr1 post' tr1
  | (inl e, tr1) => (inl e, tr1)
  end.
Proof.
  unfold process_specs. revert fr tr.
  induction pre as [|sp pre IH]; intros fr tr; simpl; [done|].
  unfold mbind, M_bind.
  destruct (process_spec E loc now fc fc_datetime fr sp tr) as [[e|fr'] tr'];
    [done|apply IH].
Qed.

Lemma process_specs_one fr sp tr :
  process_specs E loc now fc fc_datetime fr [sp] tr =
  process_spec E loc now fc fc_datetime fr sp tr.
Proof.
  unfold process_specs. simpl. unfold mbind, M_bind.
  by destruct (process_spec E loc now fc fc_datetime fr sp tr) as [[e|fr'] tr'].
Qed.

(** A specification whose provider field is missing from the hour adds no
    belief and raises nothing: the frame is returned as it was, one warning
    is logged, and the loop goes on with the specifications that follow. *)
Lemma process_spec_missing_field fr sp tr :
  fc !! weather_sensor_name sp = None →
  process_spec E loc now fc fc_datetime fr sp tr =
    (inr fr, tr ++ [Warning (weather_sensor_name sp) fc_datetime]) ∧
  ∀ rest,
    process_specs E loc now fc fc_datetime fr (sp :: rest) tr =
    process_specs E loc now fc fc_datetime fr rest
      (tr ++ [Warning (weather_sensor_name sp) fc_datetime]).
Proof.
  intros Hmissing.
  assert (process_spec E loc now fc fc_datetime fr sp tr =
    (inr fr, tr ++ [Warning (weather_sensor_name sp) fc_datetime])) as Hstep.
  { unfold process_spec. by rewrite Hmissing. }
  split; [done|]. intros rest. unfold process_specs. simpl.
  unfold mbind at 1, M_bind at 1. by rewrite Hstep.
Qed.

(** C4: for the irradiance specification, with the field present and a
    sensor resolved, the belief put at the end of the batch of that sensor
    carries the derived source, and its value is [compute_irradiance] of
    the provider's percentage divided by 100. *)
Theorem irradiance_is_derived fr sp tr n ratio s ws' tr' :
  fm_sensor_name sp = "irradiance" →
  fc !! weather_sensor_name sp = Some (VNum n) →
  py_truediv n (NFloat f100) = inr ratio →
  get_weather_sensor E sp loc (weather_sensors fr) max_degree tr
    = (inr (Some s, ws'), tr') →
  ∃ fr',
    process_spec E loc now fc fc_datetime fr sp tr = (inr fr', tr') ∧
    batch_of s (db_forecasts fr') =
      batch_of s (db_forecasts fr) ++
        [{| event_start := fc_datetime;
            belief_time := now;
            event_value :=
              VNum (NFloat (compute_irradiance E loc.1 loc.2 fc_datetime ratio));
            sensor := s;
            source := OwmDerivedSource |}] ∧
    data_source fr' = OwmDerivedSource.
Proof.
  intros Hname Hfield Hratio Hsensor. eexists. split; [|split].
  - unfold process_spec. rewrite Hfield.
    unfold mbind at 1, M_bind at 1. rewrite Hsensor.
    rewrite decide_True by done. simpl. rewrite Hratio.
    unfold mbind, M_bind, lift, mret, M_ret. reflexivity.
  - simpl. apply batch_of_append_ensure.
  - done.
Qed.

(** Without an irradiance belief the hour keeps the source it has. *)
Lemma process_specs_keeps_source fr pre tr fr1 tr1 :
  Forall (λ sp, fm_sensor_name sp = "irradiance" →
                fc !! weather_sensor_name sp = None ∨
                resolved E loc (weather_sensors fr) "irradiance" = None) pre →
  process_specs E loc now fc fc_datetime fr pre tr = (inr fr1, tr1) →
  data_source fr1 = data_source fr ∧
  ∀ n, resolved E loc (weather_sensors fr1) n = resolved E loc (weather_sensors fr) n.
Proof.
  intros Hpre. revert fr tr Hpre.
  induction pre as [|sp pre IH]; intros fr tr Hpre.
  { by intros [= <- <-]. }
  apply Forall_cons in Hpre as [Hsp Hpre].
  change (sp :: pre) with ([sp] ++ pre).
  rewrite process_specs_app, process_specs_one.
  destruct (process_spec E loc now fc fc_datetime fr sp tr) as [[e|fr'] tr'] eqn:Hstep;
    [done|].
  intros Hrest.
  assert (data_source fr' = data_source fr ∧
          ∀ n, resolved E loc (weather_sensors fr') n
               = resolved E loc (weather_sensors fr) n) as [Hsrc Hres].
  { revert Hstep. unfold process_spec.
    destruct (fc !! weather_sensor_name sp) as [raw|] eqn:Hfield;
      [|by intros [= <- <-]].
    unfold mbind at 1, M_bind at 1.
    destruct (get_weather_sensor E sp loc (weather_sensors fr) max_degree tr)
      as [[e|[v ws']] tr''] eqn:Hget; [done|].
    apply get_weather_sensor_inv in Hget as (Hv & Hstable & _).
    destruct v as [s|]; [|by intros [= <- <-]].
    destruct (decide (fm_sensor_name sp = "irradiance")) as [Hirr|Hirr].
    - destruct (Hsp Hirr) as [Hnone|Hnone]; [congruence|].
      rewrite Hirr in Hv. congruence.
    - by intros [= <- <-]. }
  destruct (IH fr' tr') as [Hsrc' Hres']; [|done|].
  - eapply Forall_impl; [exact Hpre|]. intros sp' Hsp' Hirr.
    destruct (Hsp' Hirr) as [?|?]; [by left|right]. by rewrite Hres.
  - split; [congruence|]. intros n. by rewrite Hres'.
Qed.

(** From a frame that holds the primary source, a specification other than
    irradiance, with its field present and a sensor resolved, gets a belief
    with the primary source and the provider's value when no irradiance
    belief was made before it. *)
Lemma process_specs_primary_source fr pre sp tr fr1 tr1 raw s ws2 tr2 :
  data_source fr = OwmSource →
  Forall (λ sp', fm_sensor_name sp' = "irradiance" →
                 fc !! weather_sensor_name sp' = None ∨
                 resolved E loc (weather_sensors fr) "irradiance" = None) pre →
  fm_sensor_name sp ≠ "irradiance" →
  fc !! weather_sensor_name sp = Some raw →
  process_specs E loc now fc fc_datetime fr pre tr = (inr fr1, tr1) →
  get_weather_sensor E sp loc (weather_sensors fr1) max_degree tr1
    = (inr (Some s, ws2), tr2) →
  ∃ fr2,
    process_specs E loc now fc fc_datetime fr (pre ++ [sp]) tr = (inr fr2, tr2) ∧
    batch_of s (db_forecasts fr2) =
      batch_of s (db_forecasts fr1) ++
        [{| event_start := fc_datetime;
            belief_time := now;
            event_value := raw;
            sensor := s;
            source := OwmSource |}].
Proof.
  intros Hsrc Hpre Hname Hfield Hrun Hsensor.
  destruct (process_specs_keeps_source _ _ _ _ _ Hpre Hrun) as [Hsrc1 _].
  eexists. split.
  - rewrite process_specs_app, Hrun, process_specs_one.
    unfold process_spec. rewrite Hfield.
    unfold mbind at 1, M_bind at 1. rewrite Hsensor.
    rewrite decide_False by done. reflexivity.
  - simpl. rewrite Hsrc1, Hsrc. apply batch_of_append_ensure.
Qed.
End process_spec.

Lemma irradiance_is_derived_witness :
  ∃ fr' tr',
    process_spec (Fixture.world Fixture.table) Fixture.utrecht Fixture.noon
        Fixture.first_hour Fixture.first_start Fixture.fresh
        (Fixture.spec "irradiance" "clouds") []
      = (inr fr', tr') ∧
    batch_of (Fixture.sensor_at_utrecht "irradiance") (db_forecasts fr') =
      [{| event_start := Fixture.first_start;
          belief_time := Fixture.noon;
          event_value := VNum (NFloat 600);
          sensor := Fixture.sensor_at_utrecht "irradiance";
          source := OwmDerivedSource |}].
Proof.
  epose proof (irradiance_is_derived (Fixture.world Fixture.table) Fixture.utrecht
                 Fixture.noon Fixture.first_hour Fixture.first_start Fixture.fresh
                 (Fixture.spec "irradiance" "clouds") [] (NInt 40) _
                 (Fixture.sensor_at_utrecht "irradiance") _ _) as Happlied.
  destruct Happlied as (fr' & Hrun & Hbatch & _);
    [reflexivity | vm_compute; reflexivity | vm_compute; reflexivity
    | vm_compute; reflexivity |].
  exists fr'. eexists. split; [exact Hrun|].
  etransitivity; [exact Hbatch|]. vm_compute. reflexivity.
Defined.

(** C5 as stated fails: with irradiance listed before temperature, the
    temperature belief of the hour is made after the irradiance belief and
    carries the derived source. *)
Lemma primary_source_counterexample :
  ∃ vars tr,
    process_forecast (Fixture.world Fixture.irradiance_first) Fixture.utrecht
        Fixture.noon (∅, []) Fixture.first_hour []
      = (inr vars, tr) ∧
    batch_of (Fixture.sensor_at_utrecht "temperature") vars.2 =
      [{| event_start := Fixture.first_start;
          belief_time := Fixture.noon;
          event_value := VNum (NFloat 11.5);
          sensor := Fixture.sensor_at_utrecht "temperature";
          source := OwmDerivedSource |}].
Proof.
  eexists. eexists. split; [vm_compute; reflexivity|]. vm_compute. reflexivity.
Qed.

(** ** Rules for the loops of a location *)

Section rules.
Context (E : env) (loc : location) (now : datetime).
Implicit Types (fr : frame) (sp : sensor_spec) (tr : list event).

Local Abbreviation max_degree := (max_degree_difference_for_nearest_weather_sensor E).

(** The resolver either answers from the cache and leaves the trace alone,
    or asks the registry once and caches the answer. *)
Lemma post_get_weather_sensor sp ws tr
    (Ok : option Sensor.t * gmap string (option Sensor.t) → list event → Prop)
    (Err : list event → Prop) :
  (∀ v, ws !! fm_sensor_name sp = Some v → Err tr ∧ Ok (v, ws) tr) →
  (ws !! fm_sensor_name sp = None →
     let tr' := tr ++ [FindWeatherSensor loc max_degree (fm_sensor_name sp)] in
     Err tr' ∧ ∀ v, Ok (v, <[fm_sensor_name sp := v]> ws) tr') →
  post (get_weather_sensor E sp loc ws max_degree) tr Ok Err.
Proof.
  intros Hhit Hmiss.
  unfold post, get_weather_sensor, mbind, M_bind, emit, mret, M_ret, raise.
  destruct (ws !! fm_sensor_name sp) as [v|].
  - destruct (Hhit v eq_refl) as [HErr HOk].
    destruct v as [s|]; [destruct (decide _)|]; done.
  - destruct (Hmiss eq_refl) as [HErr HOk].
    destruct (find_weather_sensor_by_location E loc _ _) as [s|];
      [destruct (decide _)|]; [done|apply HOk..].
Qed.

(** One specification: a warning, or a resolution followed by at most one
    new belief, whose time is [now]. *)
Lemma post_process_spec fc fc_datetime fr sp tr
    (Ok : frame → list event → Prop) (Err : list event → Prop) :
  (fc !! weather_sensor_name sp = None →
     Ok fr (tr ++ [Warning (weather_sensor_name sp) fc_datetime])) →
  (∀ raw, fc !! weather_sensor_name sp = Some raw →
     post (get_weather_sensor E sp loc (weather_sensors fr) max_degree) tr
       (λ r tr',
          Err tr' ∧
          match r.1 with
          | None =>
              Ok {| weather_sensors := r.2; db_forecasts := db_forecasts fr;
                    data_source := data_source fr |} tr'
          | Some s =>
              ∀ b src, belief_time b = now →
                Ok {| weather_sensors := r.2;
                      db_forecasts := db_append s b (db_ensure s (db_forecasts fr));
                      data_source := src |} tr'
          end)
       Err) →
  post (process_spec E loc now fc fc_datetime fr sp) tr Ok Err.
Proof.
  intros Hmiss Hhit. unfold process_spec.
  destruct (fc !! weather_sensor_name sp) as [raw|]; [|by apply Hmiss].
  eapply post_bind; [by apply (Hhit raw)|].
  intros [v ws'] tr' [HErr HOk]. simpl in HOk.
  destruct v as [s|]; [|done].
  destruct (decide (fm_sensor_name sp = "irradiance")).
  - unfold post, mbind, M_bind, lift, mret, M_ret.
    destruct (cloud_ratio raw); [done|]. by apply HOk.
  - unfold post, mbind, M_bind, mret, M_ret. by apply HOk.
Qed.

(** One hour: the timestamp is read, then the specifications are run with
    the primary source. *)
Lemma post_process_forecast vars fc tr
    (Ok : gmap string (option Sensor.t) * beliefs_per_sensor → list event → Prop)
    (Err : list event → Prop) :
  Err tr →
  (∀ fc_datetime,
     post (process_specs E loc now fc fc_datetime
             {| weather_sensors := vars.1; db_forecasts := vars.2;
                data_source := OwmSource |} (mapping E)) tr
       (λ fr tr', Ok (weather_sensors fr, db_forecasts fr) tr') Err) →
  post (process_forecast E loc now vars fc) tr Ok Err.
Proof.
  intros HErr Hspecs. unfold process_forecast.
  eapply (post_bind _ _ _ (λ _ tr', tr' = tr)).
  - destruct (fc !! "dt") as [[ts| | |]|]; try done.
    by apply post_lift.
  - intros fc_datetime ? ->.
    eapply post_bind; [apply Hspecs|]. by intros fr tr'.
Qed.
End rules.

(** One location: the dispatcher is called, then the hours are run from
    empty dictionaries. *)
Lemma post_process_location E api_key k loc tr
    (I : gmap string (option Sensor.t) * beliefs_per_sensor → list event → Prop)
    (Err : list event → Prop) :
  (∀ tr', (tr' = tr ++ [CallApi api_key loc] ∨
           ∃ diff, tr' = tr ++ [CallApi api_key loc; SkewWarning diff]) →
          Err tr' ∧ I (∅, []) tr') →
  (∀ vars fc tr', I vars tr' →
     post (process_forecast E loc (server_now E k) vars fc) tr' I Err) →
  post (process_location E api_key k loc) tr (λ db tr', ∃ ws, I (ws, db) tr') Err.
Proof.
  intros Hstart Hstep. unfold process_location.
  eapply (post_bind _ _ _ (λ _ tr', tr' = tr ++ [CallApi api_key loc])).
  { by apply post_emit. }
  intros [] ? ->.
  eapply (post_bind _ _ _ (λ _ tr', tr' = tr ++ [CallApi api_key loc])).
  { apply post_lift; [done|]. apply Hstart. by left. }
  intros [time_of_api_call forecasts] ? ->.
  eapply (post_bind _ _ _ (λ _ tr', Err tr' ∧ I (∅, []) tr')).
  { destruct (decide _).
    - apply post_emit. apply Hstart. right. eexists.
      by rewrite <- app_assoc.
    - apply post_ret. apply Hstart. by left. }
  intros [] tr' [_ HI].
  eapply post_bind.
  - apply post_foldM; [|exact HI]. intros vars fc tr'' _. apply Hstep.
  - intros [ws db] tr'' Hvars. apply post_ret. by exists ws.
Qed.

(** What holds of the two dictionaries and the trace when a location starts,
    and is kept by a warning, by a call of the registry and by a new belief,
    holds when the location is done, and held when it raised. *)
Lemma process_location_invariant E api_key k loc tr
    (J : gmap string (option Sensor.t) → beliefs_per_sensor → list event → Prop)
    (Err : list event → Prop) :
  (∀ ws db tr', J ws db tr' → Err tr') →
  (∀ tr', (tr' = tr ++ [CallApi api_key loc] ∨
           ∃ diff, tr' = tr ++ [CallApi api_key loc; SkewWarning diff]) →
          J ∅ [] tr') →
  (∀ ws db tr' label t, J ws db tr' → J ws db (tr' ++ [Warning label t])) →
  (∀ ws db tr' sensor_name v,
     ws !! sensor_name = None → J ws db tr' →
     J (<[sensor_name := v]> ws) db
       (tr' ++ [FindWeatherSensor loc
                  (max_degree_difference_for_nearest_weather_sensor E) sensor_name])) →
  (∀ ws db tr' s b,
     belief_time b = server_now E k → J ws db tr' →
     J ws (db_append s b (db_ensure s db)) tr') →
  post (process_location E api_key k loc) tr (λ db tr', ∃ ws, J ws db tr') Err.
Proof.
  intros HErr Hstart Hwarn Hfind Hbelief.
  apply (post_process_location E api_key k loc tr (λ vars tr', J vars.1 vars.2 tr')).
  { intros tr' Htr'. split; [eapply HErr|]; by apply Hstart. }
  intros [ws db] fc tr' HJ. simpl in HJ.
  apply post_process_forecast; [by eapply HErr|]. intros fc_datetime. simpl.
  unfold process_specs.
  eapply post_mono.
  - apply (post_foldM _ (λ fr tr'', J (weather_sensors fr) (db_forecasts fr) tr''));
      [|exact HJ].
    intros fr sp tr'' _ Hfr. apply post_process_spec; [intros _; by apply Hwarn|].
    intros raw _. apply post_get_weather_sensor.
    + intros v _. split; [by eapply HErr|]. simpl. split; [by eapply HErr|].
      destruct v as [s|]; [|done]. intros b src Hb. by apply Hbelief.
    + intros Hnone. simpl.
      assert (∀ v, J (<[fm_sensor_name sp := v]> (weather_sensors fr))
                     (db_forecasts fr)
                     (tr'' ++ [FindWeatherSensor loc
                        (max_degree_difference_for_nearest_weather_sensor E)
                        (fm_sensor_name sp)])) as Hnew.
      { intros v. by apply Hfind. }
      split; [exact (HErr _ _ _ (Hnew None))|].
      intros v. split; [exact (HErr _ _ _ (Hnew v))|].
      destruct v as [s|]; [|apply Hnew]. intros b src Hb. by apply Hbelief.
  - by intros fr tr''.
  - done.
Qed.

(** C3, amended: the belief time of every belief that a location collects is
    the reading of the server clock taken for that location before the
    dispatcher is called. *)
Theorem belief_time_is_server_now E api_key k loc tr db tr' :
  process_location E api_key k loc tr = (inr db, tr') →
  all_beliefs (λ b, belief_time b = server_now E k) db.
Proof.
  intros Hrun.
  pose proof (process_location_invariant E api_key k loc tr
    (λ _ db _, all_beliefs (λ b, belief_time b = server_now E k) db)
    (λ _, True)) as Hpost.
  unfold post in Hpost. rewrite Hrun in Hpost.
  destruct Hpost as [_ Hdb]; try done.
  - intros _ _. by constructor.
  - intros _ db' _ s b Hb Hdb.
    by apply all_beliefs_append; [apply all_beliefs_ensure|].
Qed.

Lemma belief_time_is_server_now_witness :
  ∃ db tr,
    process_location (Fixture.world Fixture.table) "key" 0 Fixture.utrecht []
      = (inr db, tr) ∧
    length db = 4%nat ∧
    all_beliefs (λ b, belief_time b = Fixture.noon) db.
Proof.
  destruct (process_location (Fixture.world Fixture.table) "key" 0 Fixture.utrecht [])
    as [[e|db] tr] eqn:Hrun; [by vm_compute in Hrun|].
  exists db, tr. split; [done|]. split.
  - vm_compute in Hrun. by injection Hrun as <- <-.
  - exact (belief_time_is_server_now _ _ _ _ _ _ _ Hrun).
Defined.

(** C3 as stated fails: the dispatcher returns the call time 1700000100
    seconds, the server clock read 1700000123 seconds, and the beliefs carry
    the reading of the clock. *)
Lemma belief_time_counterexample :
  ∃ forecasts db tr,
    call_api (Fixture.world Fixture.table) 0 "key" Fixture.utrecht
      = inr (1700000100000000, forecasts) ∧
    process_location (Fixture.world Fixture.table) "key" 0 Fixture.utrecht []
      = (inr db, tr) ∧
    belief_time <$> batch_of (Fixture.sensor_at_utrecht "temperature") db
      = [1700000123000000; 1700000123000000].
Proof.
  do 3 eexists. split; [reflexivity|]. split; [vm_compute; reflexivity|].
  vm_compute. reflexivity.
Qed.

(** ** Calls of the registry *)

Lemma resolver_calls_snoc loc sensor_name tr ev :
  resolver_calls loc sensor_name (tr ++ [ev]) =
  (resolver_calls loc sensor_name tr + if is_find loc sensor_name ev then 1 else 0)%nat.
Proof.
  unfold resolver_calls. rewrite filter_app, length_app. f_equal.
  destruct (is_find loc sensor_name ev) eqn:Hev.
  - by rewrite filter_cons_True.
  - rewrite filter_cons_False; [done|]. by rewrite Hev.
Qed.

Lemma is_find_spec loc sensor_name loc' max_degree sensor_name' :
  is_find loc sensor_name (FindWeatherSensor loc' max_degree sensor_name') = true
  ↔ loc' = loc ∧ sensor_name' = sensor_name.
Proof. simpl. by rewrite bool_decide_eq_true. Qed.

Lemma occurrences_cons loc l locations :
  occurrences loc (l :: locations) =
  ((if decide (l = loc) then 1 else 0) + occurrences loc locations)%nat.
Proof.
  unfold occurrences. destruct (decide (l = loc)).
  - by rewrite filter_cons_True.
  - by rewrite filter_cons_False.
Qed.

Lemma occurrences_absent loc locations :
  loc ∉ locations → occurrences loc locations = 0%nat.
Proof.
  induction locations as [|l locations IH]; [done|].
  intros Hnotin. apply not_elem_of_cons in Hnotin as [Hne Hnotin].
  rewrite occurrences_cons, decide_False by done. by rewrite IH.
Qed.

Lemma occurrences_NoDup loc locations :
  NoDup locations → (occurrences loc locations ≤ 1)%nat.
Proof.
  induction 1 as [|l locations Hnotin _ IH]; [unfold occurrences; simpl; lia|].
  rewrite occurrences_cons. destruct (decide (l = loc)) as [->|]; [|lia].
  rewrite occurrences_absent by done. lia.
Qed.

(** A location asks the registry at most once for a name, and only about
    itself. *)
Lemma process_location_resolver_calls E api_key k loc tr l n :
  let bound tr' :=
    (resolver_calls l n tr' ≤
     resolver_calls l n tr + if decide (loc = l) then 1 else 0)%nat in
  post (process_location E api_key k loc) tr (λ _ tr', bound tr') bound.
Proof.
  intros bound. eapply post_mono.
  - apply (process_location_invariant E api_key k loc tr
      (λ ws _ tr',
         (resolver_calls l n tr' ≤
          resolver_calls l n tr +
            if decide (loc = l)
            then match ws !! n with Some _ => 1 | None => 0 end
            else 0)%nat)
      bound).
    + intros ws _ tr'. unfold bound.
      destruct (decide (loc = l)); [destruct (ws !! n)|]; lia.
    + intros tr' [->|[diff ->]].
      * rewrite resolver_calls_snoc. simpl. destruct (decide (loc = l)); lia.
      * change [CallApi api_key loc; SkewWarning diff]
          with ([CallApi api_key loc] ++ [SkewWarning diff]).
        rewrite app_assoc, !resolver_calls_snoc. simpl.
        destruct (decide (loc = l)); lia.
    + intros ws _ tr' label t HJ. rewrite resolver_calls_snoc. simpl. lia.
    + intros ws _ tr' sensor_name v Hnone HJ. rewrite resolver_calls_snoc.
      destruct (is_find l n _) eqn:Hfind.
      * apply is_find_spec in Hfind as [<- <-].
        rewrite decide_True in * by done.
        rewrite Hnone in HJ. rewrite lookup_insert_eq. lia.
      * destruct (decide (loc = l)) as [<-|]; [|lia].
        destruct (decide (sensor_name = n)) as [<-|Hn].
        { rewrite (proj2 (is_find_spec loc sensor_name loc _ sensor_name)) in Hfind;
            done. }
        rewrite lookup_insert_ne by done. lia.
    + done.
  - intros db tr' [ws Hws]. unfold bound.
    destruct (decide (loc = l)); [destruct (ws !! n)|]; lia.
  - done.
Qed.

Lemma for_locations_resolver_calls E api_key l n locations :
  ∀ k db tr,
    let bound tr' :=
      (resolver_calls l n tr' ≤ resolver_calls l n tr + occurrences l locations)%nat in
    post (for_locations E api_key k locations db) tr (λ _ tr', bound tr') bound.
Proof.
  induction locations as [|loc locations IH]; intros k db tr bound; simpl.
  { apply post_ret. unfold bound. lia. }
  subst bound. simpl. eapply post_bind.
  - eapply post_mono; [apply (process_location_resolver_calls _ _ _ _ _ l n)| |].
    + intros db' tr' Htr'. exact Htr'.
    + intros tr' Htr'. rewrite occurrences_cons. simpl in Htr'. lia.
  - intros db' tr' Htr'. simpl in Htr'.
    eapply post_mono; [apply IH| |]; simpl; intros; rewrite occurrences_cons; lia.
Qed.

Lemma save_batches_resolver_calls E l n db :
  ∀ tr, resolver_calls l n (save_batches E db tr).2 = resolver_calls l n tr.
Proof.
  induction db as [|[s beliefs] db IH]; intros tr; simpl; [done|].
  destruct (decide (length beliefs = 0%nat)); [done|].
  unfold mbind, M_bind, emit, mret, M_ret.
  repeat destruct (decide _); rewrite IH, ?resolver_calls_snoc; simpl; lia.
Qed.

(** C8, amended: in a run the registry is asked for a sensor name at a
    location at most as often as the location occurs in the list of
    locations, the cache being emptied for every entry of the list; so at
    most once when the locations are distinct. *)
Theorem resolver_called_once_per_location E api_key locations loc sensor_name :
  (resolver_calls loc sensor_name (save_forecasts_in_db E api_key locations []).2
   ≤ occurrences loc locations)%nat ∧
  (NoDup locations →
   (resolver_calls loc sensor_name (save_forecasts_in_db E api_key locations []).2
    ≤ 1)%nat).
Proof.
  assert (resolver_calls loc sensor_name
            (save_forecasts_in_db E api_key locations []).2
          ≤ occurrences loc locations)%nat as Hbound.
  { unfold save_forecasts_in_db, mbind, M_bind.
    pose proof (for_locations_resolver_calls E api_key loc sensor_name
                  locations 0 None []) as Hloop.
    unfold post in Hloop. simpl in Hloop.
    destruct (for_locations E api_key 0 locations None []) as [[e|[db|]] tr];
      simpl; [done| |done].
    by rewrite save_batches_resolver_calls. }
  split; [done|]. intros Hdistinct.
  pose proof (occurrences_NoDup loc locations Hdistinct). lia.
Qed.

(** C8 as stated fails: a list that names a location twice makes the
    registry answer twice for the same name at the same place. *)
Lemma resolver_called_twice_counterexample :
  resolver_calls Fixture.utrecht "temperature"
    (save_forecasts_in_db (Fixture.world Fixture.table) "key"
       [Fixture.utrecht; Fixture.utrecht] []).2 = 2%nat.
Proof. vm_compute. reflexivity. Qed.

(** ** A sensor of the wrong resolution *)

Section mismatch.
Context (E : env) (loc : location) (now : datetime).
Context (sp : sensor_spec) (s : Sensor.t).
Hypothesis Hmismatch : Sensor.event_resolution s ≠ event_resolution sp.

Local Abbreviation max_degree := (max_degree_difference_for_nearest_weather_sensor E).

(** The cache hands out [s] for the name of [sp]. *)
Local Abbreviation hands_out ws := (resolved E loc ws (fm_sensor_name sp) = Some s).

Lemma process_spec_keeps_resolved fc fc_datetime fr sp' tr :
  hands_out (weather_sensors fr) →
  post (process_spec E loc now fc fc_datetime fr sp') tr
    (λ fr' _, hands_out (weather_sensors fr')) (λ _, True).
Proof.
  intros Hfr. unfold post.
  destruct (process_spec E loc now fc fc_datetime fr sp' tr) as [[e|fr'] tr'] eqn:Hstep;
    [done|].
  revert Hstep. unfold process_spec.
  destruct (fc !! weather_sensor_name sp') as [raw|]; [|by intros [= <- _]].
  unfold mbind at 1, M_bind at 1.
  destruct (get_weather_sensor E sp' loc (weather_sensors fr) max_degree tr)
    as [[e|[v ws']] tr''] eqn:Hget; [done|].
  apply get_weather_sensor_inv in Hget as (_ & Hstable & _).
  destruct v as [s'|]; [|intros [= <- _]; simpl; by rewrite Hstable].
  destruct (decide (fm_sensor_name sp' = "irradiance")).
  - unfold mbind, M_bind, lift, mret, M_ret.
    destruct (cloud_ratio raw); [done|].
    intros [= <- _]. simpl. by rewrite Hstable.
  - intros [= <- _]. simpl. by rewrite Hstable.
Qed.

Lemma process_spec_raises fc fc_datetime fr tr :
  is_Some (fc !! weather_sensor_name sp) →
  hands_out (weather_sensors fr) →
  is_ok (process_spec E loc now fc fc_datetime fr sp tr).1 = false.
Proof.
  intros [raw Hraw] Hfr. unfold process_spec. rewrite Hraw.
  unfold mbind at 1, M_bind at 1.
  pose proof (get_weather_sensor_mismatch E loc sp (weather_sensors fr) tr s
                Hfr Hmismatch) as Hraise.
  by destruct (get_weather_sensor E sp loc (weather_sensors fr) max_degree tr)
    as [[e|[v ws']] tr'].
Qed.

Lemma process_forecast_keeps_resolved vars fc tr :
  hands_out vars.1 →
  post (process_forecast E loc now vars fc) tr
    (λ vars' _, hands_out vars'.1) (λ _, True).
Proof.
  intros Hvars. apply post_process_forecast; [done|]. intros fc_datetime.
  unfold process_specs. eapply post_mono.
  - apply (post_foldM _ (λ fr _, hands_out (weather_sensors fr)) (λ _, True));
      [|exact Hvars].
    intros fr sp' tr' _. apply process_spec_keeps_resolved.
  - by intros fr tr'.
  - done.
Qed.

Lemma process_forecast_raises vars fc tr :
  sp ∈ mapping E →
  is_Some (fc !! weather_sensor_name sp) →
  hands_out vars.1 →
  is_ok (process_forecast E loc now vars fc tr).1 = false.
Proof.
  intros Hsp Hfield Hvars. unfold process_forecast.
  unfold mbind at 1, M_bind at 1.
  destruct (match fc !! "dt" with
            | Some (VNum ts) => lift (as_server_time_fromtimestamp E ts)
            | Some _ => raise TypeError
            | None => raise (KeyError "dt")
            end tr) as [[e|fc_datetime] tr'] eqn:Hdt; [done|].
  unfold mbind, M_bind, process_specs.
  set (fr0 := {| weather_sensors := vars.1; db_forecasts := vars.2;
                 data_source := OwmSource |}).
  assert (is_ok (foldM (process_spec E loc now fc fc_datetime) fr0
                   (mapping E) tr').1 = false) as Hloop.
  { apply (foldM_raises _ (λ fr, hands_out (weather_sensors fr)) _ sp Hsp);
      [| |exact Hvars].
    - intros fr' sp' tr'' Hfr'. by apply process_spec_keeps_resolved.
    - intros fr' tr'' Hfr'. by apply process_spec_raises. }
  by destruct (foldM _ fr0 (mapping E) tr') as [[e|fr] tr''].
Qed.
End mismatch.

Lemma process_location_raises E api_key k loc t fcs fc sp s tr :
  call_api E k api_key loc = inr (t, fcs) →
  fc ∈ fcs → sp ∈ mapping E →
  is_Some (fc !! weather_sensor_name sp) →
  find_weather_sensor_by_location E loc
    (max_degree_difference_for_nearest_weather_sensor E) (fm_sensor_name sp) = Some s →
  Sensor.event_resolution s ≠ event_resolution sp →
  is_ok (process_location E api_key k loc tr).1 = false.
Proof.
  intros Hcall Hfc Hsp Hfield Hfind Hmismatch.
  assert (∀ tr', is_ok (foldM (process_forecast E loc (server_now E k)) (∅, [])
                          fcs tr').1 = false) as Hloop.
  { intros tr'.
    apply (foldM_raises _
             (λ vars, resolved E loc vars.1 (fm_sensor_name sp) = Some s) _ fc Hfc).
    - intros vars fc' tr'' Hvars.
      by apply (process_forecast_keeps_resolved E loc _ sp s).
    - intros vars tr'' Hvars.
      by apply (process_forecast_raises E loc _ sp s Hmismatch).
    - unfold resolved. simpl. by rewrite lookup_empty. }
  unfold process_location, mbind, M_bind, emit, lift. rewrite Hcall.
  destruct (decide _); unfold mret, M_ret;
    match goal with
    | |- context [foldM ?f ?a ?l ?t] =>
        specialize (Hloop t); by destruct (foldM f a l t) as [[?|?] ?]
    end.
Qed.

Lemma for_locations_raises E api_key locations loc t fcs fc sp s :
  ∀ k0 i db tr,
    locations !! i = Some loc →
    call_api E (k0 + i) api_key loc = inr (t, fcs) →
    fc ∈ fcs → sp ∈ mapping E →
    is_Some (fc !! weather_sensor_name sp) →
    find_weather_sensor_by_location E loc
      (max_degree_difference_for_nearest_weather_sensor E) (fm_sensor_name sp) = Some s →
    Sensor.event_resolution s ≠ event_resolution sp →
    is_ok (for_locations E api_key k0 locations db tr).1 = false.
Proof.
  induction locations as [|l locations IH];
    intros k0 i db tr Hi Hcall Hfc Hsp Hfield Hfind Hmismatch; [done|].
  simpl. unfold mbind, M_bind.
  destruct i as [|i]; simpl in Hi.
  - injection Hi as ->. rewrite Nat.add_0_r in Hcall.
    pose proof (process_location_raises E api_key k0 loc t fcs fc sp s tr
                  Hcall Hfc Hsp Hfield Hfind Hmismatch) as Hraise.
    by destruct (process_location E api_key k0 loc tr) as [[e|db'] tr'].
  - destruct (process_location E api_key k0 l tr) as [[e|db'] tr']; [done|].
    apply (IH (S k0) i); try done.
    by replace (S k0 + i)%nat with (k0 + S i)%nat by lia.
Qed.

(** The loops over the locations hand nothing to [save_to_db]. *)
Lemma for_locations_no_saves E api_key locations :
  ∀ k db tr,
    no_saves tr →
    post (for_locations E api_key k locations db) tr (λ _ tr', no_saves tr') no_saves.
Proof.
  induction locations as [|loc locations IH]; intros k db tr Htr; simpl; [done|].
  eapply post_bind.
  - eapply post_mono.
    + apply (process_location_invariant E api_key k loc tr
               (λ _ _ tr', no_saves tr') no_saves); unfold no_saves.
      * done.
      * intros tr' [->|[diff ->]]; apply Forall_app; split; by repeat constructor.
      * intros _ _ tr' label t Htr'. apply Forall_app. split; by repeat constructor.
      * intros _ _ tr' n v _ Htr'. apply Forall_app. split; by repeat constructor.
      * done.
    + intros db' tr' [_ Htr']. exact Htr'.
    + done.
  - intros db' tr' Htr'. by apply IH.
Qed.

(** C9: when a sensor that the registry holds for a specification has
    another resolution than the specification declares, and an hour of that
    location carries the field of the specification, the run raises, and it
    raises with no batch handed to [save_to_db]. *)
Theorem resolution_mismatch_raises_before_saving
    E api_key locations k loc t fcs fc sp s :
  locations !! k = Some loc →
  call_api E k api_key loc = inr (t, fcs) →
  fc ∈ fcs → sp ∈ mapping E →
  is_Some (fc !! weather_sensor_name sp) →
  find_weather_sensor_by_location E loc
    (max_degree_difference_for_nearest_weather_sensor E) (fm_sensor_name sp) = Some s →
  Sensor.event_resolution s ≠ event_resolution sp →
  ∃ e tr,
    save_forecasts_in_db E api_key locations [] = (inl e, tr) ∧ no_saves tr.
Proof.
  intros Hk Hcall Hfc Hsp Hfield Hfind Hmismatch.
  pose proof (for_locations_raises E api_key locations loc t fcs fc sp s
                0 k None [] Hk Hcall Hfc Hsp Hfield Hfind Hmismatch) as Hraise.
  pose proof (for_locations_no_saves E api_key locations 0 None []) as Hquiet.
  unfold post in Hquiet. unfold save_forecasts_in_db, mbind, M_bind.
  destruct (for_locations E api_key 0 locations None []) as [[e|db] tr]; [|done].
  exists e, tr. split; [done|]. apply Hquiet. constructor.
Qed.

Lemma resolution_mismatch_raises_before_saving_witness :
  ∃ e tr,
    save_forecasts_in_db (Fixture.world Fixture.quarter_hourly) "key"
      [Fixture.paris; Fixture.utrecht] [] = (inl e, tr) ∧
    no_saves tr.
Proof.
  apply (resolution_mismatch_raises_before_saving
           (Fixture.world Fixture.quarter_hourly) "key"
           [Fixture.paris; Fixture.utrecht] 1 Fixture.utrecht
           1700000100000000 Fixture.two_hours Fixture.first_hour
           {| fm_sensor_name := "temperature"; weather_sensor_name := "temp";
              sensor_unit := ""; event_resolution := 900000000 |}
           (Fixture.sensor_at_utrecht "temperature")).
  - reflexivity.
  - reflexivity.
  - by left.
  - right. by left.
  - vm_compute. by eexists.
  - vm_compute. reflexivity.
  - vm_compute. discriminate.
Defined.

(** ** What reaches the storage *)

Lemma for_locations_app E api_key init rest :
  ∀ k db tr,
    for_locations E api_key k (init ++ rest) db tr =
    match for_locations E api_key k init db tr with
    | (inr db', tr') => for_locations E api_key (k + length init) rest db' tr'
    | (inl e, tr') => (inl e, tr')
    end.
Proof.
  induction init as [|loc init IH]; intros k db tr; simpl.
  { by rewrite Nat.add_0_r. }
  unfold mbind, M_bind.
  destruct (process_location E api_key k loc tr) as [[e|db'] tr']; [done|].
  rewrite IH. by replace (S k + length init)%nat with (k + S (length init))%nat by lia.
Qed.

(** X18: the batches that are saved are those of the last location: what the
    locations before it collected does not enter the rest of the run. *)
Lemma only_the_last_location_is_saved E api_key init last db tr :
  for_locations E api_key 0 init None [] = (inr db, tr) →
  save_forecasts_in_db E api_key (init ++ [last]) [] =
  (process_location E api_key (length init) last ≫= save_batches E) tr.
Proof.
  intros Hinit. unfold save_forecasts_in_db.
  unfold mbind at 1, M_bind at 1. rewrite for_locations_app, Hinit. simpl.
  unfold mbind, M_bind.
  by destruct (process_location E api_key (length init) last tr) as [[e|db'] tr'].
Qed.

(** C1, as the code runs: on two locations with two hours each and every
    field present, four batches of two beliefs are collected for the first
    location, one for each of its sensors (ids 521 to 524), and the run ends
    well having saved four batches only, all of them of the sensors of the
    second location (ids 481 to 484). *)
Theorem first_location_is_never_saved :
  let E := Fixture.world Fixture.table in
  let run := save_forecasts_in_db E "key" [Fixture.utrecht; Fixture.paris] [] in
  batch_sizes <$> (process_location E "key" 0 Fixture.utrecht []).1
    = inr [(521, 2%nat); (522, 2%nat); (523, 2%nat); (524, 2%nat)] ∧
  run.1 = inr () ∧
  sensor_ids (saved run.2)
    = [[481; 481]; [482; 482]; [483; 483]; [484; 484]].
Proof. vm_compute. done. Qed.

(** An empty batch stops the saving loop before [save_to_db] is called for
    it. *)
Lemma empty_batch_raises E s rest tr :
  save_batches E ((s, []) :: rest) tr
  = (inl (Exception NothingToPutInTheDatabase), tr).
Proof. reflexivity. Qed.

Lemma resolver_called_once_per_location_witness :
  (resolver_calls Fixture.paris "irradiance"
     (save_forecasts_in_db (Fixture.world Fixture.table) "key"
        [Fixture.utrecht; Fixture.paris] []).2 ≤ 1)%nat.
Proof.
  apply (resolver_called_once_per_location (Fixture.world Fixture.table) "key"
           [Fixture.utrecht; Fixture.paris] Fixture.paris "irradiance").
  apply (bool_decide_unpack _). vm_compute. reflexivity.
Defined.

(** ** One hour, from its timestamp to its last specification *)

(** An hour with a timestamp that converts runs the table from the primary
    source. *)
Lemma process_forecast_dated E loc now vars fc ts fc_datetime tr :
  fc !! "dt" = Some (VNum ts) →
  as_server_time_fromtimestamp E ts = inr fc_datetime →
  process_forecast E loc now vars fc tr =
  match process_specs E loc now fc fc_datetime
          {| weather_sensors := vars.1; db_forecasts := vars.2;
             data_source := OwmSource |} (mapping E) tr with
  | (inr fr, tr') => (inr (weather_sensors fr, db_forecasts fr), tr')
  | (inl e, tr') => (inl e, tr')
  end.
Proof.
  intros Hdt Hts. unfold process_forecast. rewrite Hdt.
  unfold mbind, M_bind, lift, mret, M_ret. rewrite Hts.
  by destruct (process_specs _ _ _ _ _ _ _ _) as [[e|fr] tr'].
Qed.

(** An hour that ends well had such a timestamp. *)
Lemma process_forecast_ok_dated E loc now vars fc tr vars' tr' :
  process_forecast E loc now vars fc tr = (inr vars', tr') →
  ∃ ts fc_datetime,
    fc !! "dt" = Some (VNum ts) ∧
    as_server_time_fromtimestamp E ts = inr fc_datetime.
Proof.
  unfold process_forecast, mbind, M_bind, lift, raise.
  destruct (fc !! "dt") as [[ts| | |]|]; try done.
  destruct (as_server_time_fromtimestamp E ts) as [e|fc_datetime] eqn:Hts; [done|].
  intros _. by exists ts, fc_datetime.
Qed.

(** C5, amended: in an hour that ends well, a specification other than
    irradiance whose field is present and whose sensor is resolved gets a
    belief with the primary source and the provider's value, provided no
    irradiance belief was made before it in that hour, that is, every
    irradiance specification before it in the table lacks its field in the
    hour or has no sensor.  The hour itself sets the primary source before
    its first specification. *)
Theorem primary_source_before_irradiance
    E loc now vars fc pre sp post raw s tr vars' tr' :
  mapping E = pre ++ sp :: post →
  Forall (λ sp', fm_sensor_name sp' = "irradiance" →
                 fc !! weather_sensor_name sp' = None ∨
                 resolved E loc vars.1 "irradiance" = None) pre →
  fm_sensor_name sp ≠ "irradiance" →
  fc !! weather_sensor_name sp = Some raw →
  resolved E loc vars.1 (fm_sensor_name sp) = Some s →
  process_forecast E loc now vars fc tr = (inr vars', tr') →
  ∃ ts fc_datetime,
    fc !! "dt" = Some (VNum ts) ∧
    as_server_time_fromtimestamp E ts = inr fc_datetime ∧
    hour_appends E loc now vars fc pre sp post
      {| event_start := fc_datetime;
         belief_time := now;
         event_value := raw;
         sensor := s;
         source := OwmSource |} tr vars' tr'.
Proof.
  intros Htable Hpre Hname Hfield Hs Hrun.
  destruct (process_forecast_ok_dated _ _ _ _ _ _ _ _ Hrun)
    as (ts & fc_datetime & Hdt & Hts).
  exists ts, fc_datetime. split; [done|]. split; [done|].
  rewrite (process_forecast_dated _ _ _ _ _ _ _ _ Hdt Hts), Htable in Hrun.
  rewrite process_specs_app in Hrun.
  set (fr0 := {| weather_sensors := vars.1; db_forecasts := vars.2;
                 data_source := OwmSource |}) in *.
  destruct (process_specs E loc now fc fc_datetime fr0 pre tr)
    as [[e|fr1] tr1] eqn:Hbefore; [done|].
  destruct (process_specs_keeps_source E loc now fc fc_datetime fr0 pre tr fr1 tr1
              Hpre Hbefore) as [Hsource Hstable].
  change (sp :: post) with ([sp] ++ post) in Hrun.
  rewrite process_specs_app, process_specs_one in Hrun.
  unfold process_spec in Hrun. rewrite Hfield in Hrun.
  unfold mbind at 1, M_bind at 1 in Hrun.
  destruct (get_weather_sensor E sp loc (weather_sensors fr1) _ tr1)
    as [[e|[v ws2]] tr2] eqn:Hget; [done|].
  pose proof (get_weather_sensor_inv _ _ _ _ _ _ _ _ Hget) as (Hv & _ & _).
  rewrite Hstable in Hv. simpl in Hv. rewrite Hs in Hv. subst v.
  rewrite decide_False in Hrun by done.
  unfold mbind, M_bind, mret, M_ret in Hrun. rewrite Hsource in Hrun. simpl in Hrun.
  match type of Hrun with
  | context [process_specs E loc now fc fc_datetime ?fr2 post tr2] =>
      destruct (process_specs E loc now fc fc_datetime fr2 post tr2)
        as [[e|fr3] tr3] eqn:Hafter; [done|]
  end.
  injection Hrun as <- <-.
  exists fr1, tr1, ws2, tr2, fr3. simpl.
  split; [done|]. split; [done|]. split; [apply batch_of_append_ensure|].
  split; [exact Hafter|done].
Qed.

Lemma primary_source_before_irradiance_witness :
  ∃ vars' tr',
    process_forecast (Fixture.world Fixture.table) Fixture.utrecht Fixture.noon
      (∅, []) Fixture.first_hour [] = (inr vars', tr') ∧
    hour_appends (Fixture.world Fixture.table) Fixture.utrecht Fixture.noon
      (∅, []) Fixture.first_hour
      [Fixture.spec "temperature" "temp"; Fixture.spec "wind speed" "wind_speed"]
      (Fixture.spec "cloud cover" "clouds") [Fixture.spec "irradiance" "clouds"]
      {| event_start := Fixture.first_start;
         belief_time := Fixture.noon;
         event_value := VNum (NInt 40);
         sensor := Fixture.sensor_at_utrecht "cloud cover";
         source := OwmSource |} [] vars' tr'.
Proof.
  assert (is_ok (process_forecast (Fixture.world Fixture.table) Fixture.utrecht
                   Fixture.noon (∅, []) Fixture.first_hour []).1 = true) as Hok
    by (vm_compute; reflexivity).
  destruct (process_forecast (Fixture.world Fixture.table) Fixture.utrecht
              Fixture.noon (∅, []) Fixture.first_hour []) as [[e|vars'] tr'] eqn:Hrun;
    [discriminate Hok|].
  exists vars', tr'. split; [reflexivity|].
  destruct (primary_source_before_irradiance (Fixture.world Fixture.table)
              Fixture.utrecht Fixture.noon (∅, []) Fixture.first_hour
              [Fixture.spec "temperature" "temp"; Fixture.spec "wind speed" "wind_speed"]
              (Fixture.spec "cloud cover" "clouds") [Fixture.spec "irradiance" "clouds"]
              (VNum (NInt 40)) (Fixture.sensor_at_utrecht "cloud cover")
              [] vars' tr')
    as (ts & fc_datetime & Hdt & Hts & Happends);
    [reflexivity | by repeat constructor | done | vm_compute; reflexivity
    | vm_compute; reflexivity | exact Hrun |].
  vm_compute in Hdt. injection Hdt as <-.
  vm_compute in Hts. injection Hts as <-.
  exact Happends.
Defined.

(** ** A warning, from its hour to the end of the run *)

(** What one round of a loop brings about and the other rounds keep holds
    when the loop ends well. *)
Lemma foldM_eventually {A B} (f : A → B → M A) (P : list event → Prop)
    (x : B) (l : list B) :
  x ∈ l →
  (∀ a tr, post (f a x) tr (λ _ tr', P tr') (λ _, True)) →
  (∀ a y tr, P tr → post (f a y) tr (λ _ tr', P tr') (λ _, True)) →
  ∀ a tr, post (foldM f a l) tr (λ _ tr', P tr') (λ _, True).
Proof.
  intros Hin Hbrings Hkeeps.
  induction Hin as [x l|x y l _ IH]; intros a tr; simpl.
  - eapply post_bind; [apply Hbrings|]. intros a' tr' Htr'.
    apply (post_foldM f (λ _ tr'', P tr'') (λ _, True)); [|done].
    intros a'' y tr'' _. apply Hkeeps.
  - eapply (post_bind _ _ _ (λ _ _, True)).
    + unfold post. by destruct (f a y tr) as [[?|?] ?].
    + intros a' tr' _. by apply IH.
Qed.

Section keeps_event.
Context (E : env) (loc : location) (now : datetime) (ev : event).

Lemma process_spec_keeps_event fc fc_datetime fr sp tr :
  ev ∈ tr →
  post (process_spec E loc now fc fc_datetime fr sp) tr
    (λ _ tr', ev ∈ tr') (λ _, True).
Proof.
  intros Hev. apply post_process_spec.
  - intros _. apply elem_of_app. by left.
  - intros raw _. apply post_get_weather_sensor.
    + intros v _. split; [done|]. simpl. split; [done|]. by destruct v.
    + intros _. simpl.
      assert (ev ∈ tr ++ [FindWeatherSensor loc
                            (max_degree_difference_for_nearest_weather_sensor E)
                            (fm_sensor_name sp)]) as Hev'
        by (apply elem_of_app; by left).
      split; [done|]. intros v. split; [done|]. by destruct v.
Qed.

Lemma process_forecast_keeps_event vars fc tr :
  ev ∈ tr →
  post (process_forecast E loc now vars fc) tr (λ _ tr', ev ∈ tr') (λ _, True).
Proof.
  intros Hev. apply post_process_forecast; [done|]. intros fc_datetime.
  unfold process_specs. eapply post_mono.
  - apply (post_foldM _ (λ _ tr', ev ∈ tr') (λ _, True)); [|exact Hev].
    intros fr sp tr' _. apply process_spec_keeps_event.
  - by intros fr tr'.
  - done.
Qed.
End keeps_event.

Lemma for_locations_keeps_event E api_key ev locations :
  ∀ k db tr,
    ev ∈ tr →
    post (for_locations E api_key k locations db) tr
      (λ _ tr', ev ∈ tr') (λ _, True).
Proof.
  induction locations as [|loc locations IH]; intros k db tr Hev; simpl; [done|].
  eapply post_bind.
  - eapply post_mono.
    + apply (process_location_invariant E api_key k loc tr
               (λ _ _ tr', ev ∈ tr') (λ _, True)).
      * done.
      * intros tr' [->|[diff ->]]; apply elem_of_app; by left.
      * intros _ _ tr' label t Htr'. apply elem_of_app. by left.
      * intros _ _ tr' n v _ Htr'. apply elem_of_app. by left.
      * done.
    + intros db' tr' [_ Htr']. exact Htr'.
    + done.
  - intros db' tr' Htr'. by apply IH.
Qed.

Section warning.
Context (E : env) (loc : location) (now : datetime).
Context (fc : forecast) (sp : sensor_spec) (ts : num) (fc_datetime : datetime).
Hypothesis Hsp : sp ∈ mapping E.
Hypothesis Hmissing : fc !! weather_sensor_name sp = None.
Hypothesis Hdt : fc !! "dt" = Some (VNum ts).
Hypothesis Hts : as_server_time_fromtimestamp E ts = inr fc_datetime.

Local Abbreviation warning := (Warning (weather_sensor_name sp) fc_datetime).

Lemma process_forecast_warns vars tr :
  post (process_forecast E loc now vars fc) tr
    (λ _ tr', warning ∈ tr') (λ _, True).
Proof.
  assert (∀ fr tr',
            post (process_specs E loc now fc fc_datetime fr (mapping E)) tr'
              (λ _ tr'', warning ∈ tr'') (λ _, True)) as Hloop.
  { intros fr tr'. unfold process_specs.
    apply (foldM_eventually _ (λ tr'', warning ∈ tr'') sp (mapping E) Hsp).
    - intros fr' tr''. unfold post.
      rewrite (proj1 (process_spec_missing_field E loc now fc fc_datetime
                        fr' sp tr'' Hmissing)).
      apply elem_of_app. right. by left.
    - intros fr' sp' tr'' Htr''. by apply process_spec_keeps_event. }
  unfold post. rewrite (process_forecast_dated _ _ _ _ _ _ _ _ Hdt Hts).
  match goal with
  | |- context [process_specs E loc now fc fc_datetime ?fr (mapping E) tr] =>
      specialize (Hloop fr tr); unfold post in Hloop;
      by destruct (process_specs E loc now fc fc_datetime fr (mapping E) tr)
        as [[?|?] ?]
  end.
Qed.

Lemma process_forecasts_warn fcs vars tr :
  fc ∈ fcs →
  post (foldM (process_forecast E loc now) vars fcs) tr
    (λ _ tr', warning ∈ tr') (λ _, True).
Proof.
  intros Hfc. apply (foldM_eventually _ (λ tr', warning ∈ tr') fc fcs Hfc).
  - intros vars' tr'. apply process_forecast_warns.
  - intros vars' fc' tr' Htr'. by apply process_forecast_keeps_event.
Qed.
End warning.

Lemma save_batches_keeps_event E ev db :
  ∀ tr, ev ∈ tr → ev ∈ (save_batches E db tr).2.
Proof.
  induction db as [|[s beliefs] db IH]; intros tr Hev; simpl; [done|].
  destruct (decide (length beliefs = 0%nat)); [done|].
  unfold mbind, M_bind, emit, mret, M_ret.
  repeat destruct (decide _); apply IH; repeat (apply elem_of_app; left); done.
Qed.

Lemma process_location_warns E api_key k loc t fcs fc sp ts fc_datetime tr :
  call_api E k api_key loc = inr (t, fcs) →
  fc ∈ fcs → sp ∈ mapping E →
  fc !! weather_sensor_name sp = None →
  fc !! "dt" = Some (VNum ts) →
  as_server_time_fromtimestamp E ts = inr fc_datetime →
  post (process_location E api_key k loc) tr
    (λ _ tr', Warning (weather_sensor_name sp) fc_datetime ∈ tr') (λ _, True).
Proof.
  intros Hcall Hfc Hsp Hmissing Hdt Hts.
  pose proof (process_forecasts_warn E loc (server_now E k) fc sp ts fc_datetime
                Hsp Hmissing Hdt Hts fcs (∅, [])) as Hloop.
  unfold post, process_location, mbind, M_bind, emit, lift. rewrite Hcall.
  destruct (decide _); unfold mret, M_ret;
    match goal with
    | |- context [foldM ?f ?a ?l ?t] =>
        specialize (Hloop t Hfc); unfold post in Hloop;
        by destruct (foldM f a l t) as [[?|?] ?]
    end.
Qed.

Lemma for_locations_warn E api_key locations loc t fcs fc sp ts fc_datetime :
  ∀ k0 i db tr,
    locations !! i = Some loc →
    call_api E (k0 + i) api_key loc = inr (t, fcs) →
    fc ∈ fcs → sp ∈ mapping E →
    fc !! weather_sensor_name sp = None →
    fc !! "dt" = Some (VNum ts) →
    as_server_time_fromtimestamp E ts = inr fc_datetime →
    post (for_locations E api_key k0 locations db) tr
      (λ _ tr', Warning (weather_sensor_name sp) fc_datetime ∈ tr') (λ _, True).
Proof.
  induction locations as [|l locations IH];
    intros k0 i db tr Hi Hcall Hfc Hsp Hmissing Hdt Hts; [done|].
  simpl. destruct i as [|i]; simpl in Hi.
  - injection Hi as ->. rewrite Nat.add_0_r in Hcall.
    eapply post_bind; [by eapply process_location_warns|].
    intros db' tr' Htr'. by apply for_locations_keeps_event.
  - eapply (post_bind _ _ _ (λ _ _, True)).
    + unfold post. by destruct (process_location E api_key k0 l tr) as [[?|?] ?].
    + intros db' tr' _. apply (IH (S k0) i); try done.
      by replace (S k0 + i)%nat with (k0 + S i)%nat by lia.
Qed.

(** C7: when an hour that the dispatcher returned for a location lacks the
    provider field of a specification of the table, in that hour the turn of
    the specification returns the loop variables as they are (no belief, no
    registry call, no exception) and logs one warning; the hour then runs
    the specifications after it, and the loop over the hours runs the hours
    after it; and a run that ends well has logged the warning. *)
Theorem missing_field_is_skipped
    E api_key locations k loc t fcs fc sp ts fc_datetime :
  locations !! k = Some loc →
  call_api E k api_key loc = inr (t, fcs) →
  fc ∈ fcs → sp ∈ mapping E →
  fc !! weather_sensor_name sp = None →
  fc !! "dt" = Some (VNum ts) →
  as_server_time_fromtimestamp E ts = inr fc_datetime →
  let now := server_now E k in
  let warning := Warning (weather_sensor_name sp) fc_datetime in
  (∀ fr tr,
     process_spec E loc now fc fc_datetime fr sp tr = (inr fr, tr ++ [warning])) ∧
  (∀ pre post vars rest tr fr1 tr1,
     mapping E = pre ++ sp :: post →
     process_specs E loc now fc fc_datetime
       {| weather_sensors := vars.1; db_forecasts := vars.2;
          data_source := OwmSource |} pre tr = (inr fr1, tr1) →
     foldM (process_forecast E loc now) vars (fc :: rest) tr =
     match process_specs E loc now fc fc_datetime fr1 post (tr1 ++ [warning]) with
     | (inr fr3, tr3) =>
         foldM (process_forecast E loc now)
           (weather_sensors fr3, db_forecasts fr3) rest tr3
     | (inl e, tr3) => (inl e, tr3)
     end) ∧
  (is_ok (save_forecasts_in_db E api_key locations []).1 = true →
   warning ∈ (save_forecasts_in_db E api_key locations []).2).
Proof.
  intros Hk Hcall Hfc Hsp Hmissing Hdt Hts now warning.
  assert (∀ fr tr, process_spec E loc now fc fc_datetime fr sp tr
                   = (inr fr, tr ++ [warning])) as Hturn.
  { intros fr tr.
    apply (process_spec_missing_field E loc now fc fc_datetime fr sp tr Hmissing). }
  split; [exact Hturn|]. split.
  - intros pre post vars rest tr fr1 tr1 Htable Hbefore. simpl.
    unfold mbind at 1, M_bind at 1.
    rewrite (process_forecast_dated _ _ _ _ _ _ _ _ Hdt Hts), Htable.
    rewrite process_specs_app, Hbefore.
    change (sp :: post) with ([sp] ++ post).
    rewrite process_specs_app, process_specs_one, Hturn.
    by destruct (process_specs E loc now fc fc_datetime fr1 post (tr1 ++ [warning]))
      as [[e|fr3] tr3].
  - pose proof (for_locations_warn E api_key locations loc t fcs fc sp ts
                  fc_datetime 0 k None [] Hk Hcall Hfc Hsp Hmissing Hdt Hts)
      as Hloop.
    unfold post in Hloop. unfold save_forecasts_in_db, mbind, M_bind.
    destruct (for_locations E api_key 0 locations None []) as [[e|[db|]] tr];
      simpl; [done| |done].
    intros _. by apply save_batches_keeps_event.
Qed.

Lemma missing_field_is_skipped_witness :
  Warning "wind_speed" Fixture.first_start
  ∈ (save_forecasts_in_db Fixture.windless_world "key" [Fixture.utrecht] []).2.
Proof.
  apply (missing_field_is_skipped Fixture.windless_world "key" [Fixture.utrecht]
           0 Fixture.utrecht 1700000100000000
           [Fixture.windless_hour; Fixture.hourly 1700003600 12 75]
           Fixture.windless_hour (Fixture.spec "wind speed" "wind_speed")
           (NInt 1700000000) Fixture.first_start).
  - reflexivity.
  - reflexivity.
  - by left.
  - right. by left.
  - vm_compute. reflexivity.
  - vm_compute. reflexivity.
  - reflexivity.
  - vm_compute. reflexivity.
Defined.

(** * Further properties of the code *)

(** ** Splitting a text into words *)

Lemma chars_append s1 s2 : chars (s1 +:+ s2) = chars s1 ++ chars s2.
Proof. induction s1 as [|c s1 IH]; simpl; [done|]. by rewrite <- IH. Qed.

Lemma append_not_empty word c : word +:+ String c "" ≠ "".
Proof. by destruct word. Qed.

Lemma split_from_words word s :
  Forall (λ c, isspace c = false) (chars word) →
  Forall is_word (split_from word s).
Proof.
  revert word. induction s as [|c s IH]; intros word Hword; simpl.
  - destruct (decide (word = "")); by repeat constructor.
  - destruct (isspace c) eqn:Hc.
    + destruct (decide (word = ""));
        [|constructor; [done|]]; apply IH; constructor.
    + apply IH. rewrite chars_append. apply Forall_app. split; [done|].
      by repeat constructor.
Qed.

Lemma split_from_nil word s :
  split_from word s = [] ↔ word = "" ∧ blank s.
Proof.
  revert word. induction s as [|c s IH]; intros word; simpl.
  - destruct (decide (word = "")); split; try done.
    + intros _. split; [done|constructor].
    + by intros [? _].
  - unfold blank. simpl. rewrite Forall_cons. destruct (isspace c) eqn:Hc.
    + destruct (decide (word = "")) as [->|Hne].
      * rewrite IH. unfold blank.
        split; [intros [_ ?]; by repeat split|intros [_ [_ ?]]; by split].
      * split; [done|]. by intros [? _].
    + rewrite IH. split.
      * intros [Hempty _]. by apply append_not_empty in Hempty.
      * intros [_ [? _]]. congruence.
Qed.

(** X1: every word that [split] returns is a word: it is not empty and holds
    no white space; so the short label that the normaliser takes from the
    condition text is one. *)
Theorem split_gives_words s : Forall is_word (split s).
Proof. apply split_from_words. constructor. Qed.

(** X2: [split] returns no word exactly when the text is nothing but white
    space; the empty text is such a text. *)
Theorem split_nothing_iff_blank s : split s = [] ↔ blank s.
Proof. unfold split. rewrite split_from_nil. split; [by intros [_ ?]|by split]. Qed.

(** ** The normaliser beyond its usual input *)

(** X3: with fewer than three day objects the normaliser raises the index
    error of reading a missing day, whatever the hour index. *)
Theorem process_weatherapi_data_needs_three_days data h :
  (length data < 3)%nat → process_weatherapi_data data h = inl IndexError.
Proof.
  destruct data as [|d1 [|d2 [|d3 more]]]; simpl; intros Hlen; try done. lia.
Qed.

Lemma process_weatherapi_data_needs_three_days_witness :
  process_weatherapi_data [Fixture.day "Sunny"; Fixture.day "Mist"] 7
  = inl IndexError.
Proof.
  apply (process_weatherapi_data_needs_three_days
           [Fixture.day "Sunny"; Fixture.day "Mist"] 7).
  simpl. lia.
Defined.

Lemma slice_at_most_48 {A} (l : list A) (h : Z) :
  (length (slice l h (h + 48)) ≤ 48)%nat.
Proof.
  unfold slice, slice_bound. rewrite length_take.
  destruct (Z.ltb_spec h 0), (Z.ltb_spec (h + 48) 0); lia.
Qed.

(** X4: whatever the days hold and whatever the hour index is, negative or
    beyond the data, a list that the normaliser returns has at most 48
    entries. *)
Theorem process_weatherapi_data_at_most_48 data h out :
  process_weatherapi_data data h = inr out → (length out ≤ 48)%nat.
Proof.
  unfold process_weatherapi_data.
  destruct (index data 0) as [|d1]; [done|].
  destruct (index data 1) as [|d2]; [done|].
  destruct (index data 2) as [|d3]; [done|]. simpl.
  intros Hout. rewrite (map_result_length _ _ _ Hout). apply slice_at_most_48.
Qed.

Lemma process_weatherapi_data_at_most_48_witness :
  ∃ out, process_weatherapi_data Fixture.sunny_days 40 = inr out ∧
         length out = 32%nat ∧ (length out ≤ 48)%nat.
Proof.
  assert (length <$> process_weatherapi_data Fixture.sunny_days 40 = inr 32%nat)
    as Hlen by (vm_compute; reflexivity).
  destruct (process_weatherapi_data Fixture.sunny_days 40) as [err|out] eqn:Hout;
    [discriminate Hlen|].
  exists out. split; [reflexivity|]. split.
  - by injection Hlen.
  - exact (process_weatherapi_data_at_most_48 _ _ _ Hout).
Defined.

(** X5: for an hour of the shape of [wapi_hour] (it has every key that the
    normaliser reads, numbers in the four fields that enter arithmetic and a
    string as condition text), when the wind speed, the gust and the chance
    of rain are floats, the field mapping fails only with the index error of
    a condition text without a word: float arithmetic itself never raises.
    The key, type and attribute errors of an hour of another shape are not
    covered. *)
Theorem float_hour_fails_only_on_blank_text e w g p err :
  wind_kph e = NFloat w → gust_kph e = NFloat g → chance_of_rain e = NFloat p →
  map_weather_api_to_owm e = inl err →
  err = IndexError ∧ blank (text (cond e)).
Proof.
  intros Hw Hg Hp. unfold map_weather_api_to_owm.
  rewrite py_mul_1000, Hw, Hg, Hp. simpl.
  destruct (split (text (cond e))) as [|word words] eqn:Hsplit; simpl; [|done].
  intros [= <-]. split; [done|].
  apply split_from_nil in Hsplit as [_ Hblank]. exact Hblank.
Qed.

Lemma float_hour_fails_only_on_blank_text_witness :
  map_weather_api_to_owm Fixture.float_hour = inl IndexError ∧
  blank (text (cond Fixture.float_hour)).
Proof.
  assert (map_weather_api_to_owm Fixture.float_hour = inl IndexError) as Hmap
    by (vm_compute; reflexivity).
  split; [exact Hmap|].
  exact (proj2 (float_hour_fails_only_on_blank_text Fixture.float_hour
                  36 54 0 IndexError eq_refl eq_refl eq_refl Hmap)).
Defined.

(** ** The resolver and its cache *)

(** X6: after a call that returned, a further call for a specification of
    the same name and resolution returns the same sensor (or the same
    absence of one) from the cache: the cache and the trace stay as they
    are, so the registry is not asked again. *)
Theorem get_weather_sensor_again E sp sp' loc ws tr v ws' tr' :
  get_weather_sensor E sp loc ws
    (max_degree_difference_for_nearest_weather_sensor E) tr = (inr (v, ws'), tr') →
  fm_sensor_name sp' = fm_sensor_name sp →
  event_resolution sp' = event_resolution sp →
  ∀ tr2, get_weather_sensor E sp' loc ws'
           (max_degree_difference_for_nearest_weather_sensor E) tr2
         = (inr (v, ws'), tr2).
Proof.
  intros Hfirst Hname Hres tr2.
  assert (ws' !! fm_sensor_name sp = Some v ∧
          ∀ s, v = Some s → Sensor.event_resolution s = event_resolution sp)
    as [Hcached Hfits].
  { revert Hfirst.
    unfold get_weather_sensor, mbind, M_bind, emit, mret, M_ret, raise.
    destruct (ws !! fm_sensor_name sp) as [c|] eqn:Hc.
    - destruct c as [s|]; [destruct (decide _) as [|Hfit]; [done|]|];
        intros [= <- <- <-]; (split; [done|]).
      + intros s' [= <-]. by apply dec_stable.
      + done.
    - destruct (find_weather_sensor_by_location E loc _ _) as [s|];
        [destruct (decide _) as [|Hfit]; [done|]|];
        intros [= <- <- <-]; (split; [by rewrite lookup_insert_eq|]).
      + intros s' [= <-]. by apply dec_stable.
      + done. }
  unfold get_weather_sensor, mbind, M_bind, mret, M_ret, raise.
  rewrite Hname, Hcached, Hres. destruct v as [s|]; [|done].
  by rewrite decide_False by (intros Hne; by apply Hne, Hfits).
Qed.

Lemma get_weather_sensor_again_witness :
  ∃ v ws' tr',
    get_weather_sensor (Fixture.world Fixture.table)
      (Fixture.spec "temperature" "temp") Fixture.utrecht ∅ (NInt 1) []
    = (inr (v, ws'), tr') ∧
    length tr' = 1%nat ∧
    get_weather_sensor (Fixture.world Fixture.table)
      (Fixture.spec "temperature" "temp") Fixture.utrecht ws' (NInt 1) tr'
    = (inr (v, ws'), tr').
Proof.
  destruct (get_weather_sensor (Fixture.world Fixture.table)
              (Fixture.spec "temperature" "temp") Fixture.utrecht ∅ (NInt 1) [])
    as [[e|[v ws']] tr'] eqn:Hfirst; [by vm_compute in Hfirst|].
  exists v, ws', tr'. split; [done|]. split.
  - vm_compute in Hfirst. by injection Hfirst as <- <- <-.
  - exact (get_weather_sensor_again (Fixture.world Fixture.table) _
             (Fixture.spec "temperature" "temp") _ _ _ _ _ _
             Hfirst eq_refl eq_refl tr').
Defined.

(** X7: the resolver raises exactly when the sensor it settles on, cached
    or fresh from the registry, has another resolution than the
    specification declares; a name without a sensor is not an error. *)
Theorem get_weather_sensor_raises_iff E sp loc ws tr :
  is_ok (get_weather_sensor E sp loc ws
           (max_degree_difference_for_nearest_weather_sensor E) tr).1 = false
  ↔ ∃ s, resolved E loc ws (fm_sensor_name sp) = Some s ∧
         Sensor.event_resolution s ≠ event_resolution sp.
Proof.
  split.
  - destruct (get_weather_sensor E sp loc ws _ tr) as [[e|[v ws']] tr'] eqn:Hget;
      [|done].
    intros _. revert Hget.
    unfold get_weather_sensor, resolved, mbind, M_bind, emit, mret, M_ret, raise.
    destruct (ws !! fm_sensor_name sp) as [c|].
    + destruct c as [s|]; [|done]. destruct (decide _); [|done]. eauto.
    + destruct (find_weather_sensor_by_location E loc _ _) as [s|]; [|done].
      destruct (decide _); [|done]. eauto.
  - intros (s & Hs & Hne). by eapply get_weather_sensor_mismatch.
Qed.

(** ** What a location collects *)

Lemma db_append_keys s b (db : beliefs_per_sensor) :
  (db_append s b db).*1 = db.*1.
Proof.
  induction db as [|[s' bs] db IH]; simpl; [done|].
  destruct (decide (s' = s)); simpl; [done|]. f_equal. exact IH.
Qed.

Lemma db_append_app_absent s b db db' :
  s ∉ db.*1 → db_append s b (db ++ db') = db ++ db_append s b db'.
Proof.
  induction db as [|[s' bs] db IH]; simpl; [done|].
  intros Hnot. apply not_elem_of_cons in Hnot as [Hne Hnot].
  rewrite decide_False by done. by rewrite IH.
Qed.

Lemma db_step_keys s b (db : beliefs_per_sensor) :
  NoDup db.*1 → NoDup (db_append s b (db_ensure s db)).*1.
Proof.
  intros Hdb. rewrite db_append_keys. unfold db_ensure.
  destruct (decide (s ∈ db.*1)) as [|Hnot]; [done|].
  rewrite fmap_app. apply NoDup_app. split; [done|]. split.
  - intros s' Hs' ->%list_elem_of_singleton. done.
  - apply NoDup_singleton.
Qed.

Lemma batches_ok_append Q s b db :
  Forall (batch_ok Q) db → Q s b → Forall (batch_ok Q) (db_append s b db).
Proof.
  intros Hdb Hb. induction Hdb as [|[s' bs] db [Hne Hbs] Hdb IH]; simpl; [done|].
  destruct (decide (s' = s)) as [->|]; constructor; try done.
  split; simpl in *.
  - by destruct bs.
  - apply Forall_app. split; [done|]. by constructor.
Qed.

Lemma batches_ok_step Q s b db :
  Forall (batch_ok Q) db → Q s b →
  Forall (batch_ok Q) (db_append s b (db_ensure s db)).
Proof.
  intros Hdb Hb. unfold db_ensure.
  destruct (decide (s ∈ db.*1)) as [|Hnot]; [by apply batches_ok_append|].
  rewrite db_append_app_absent by done. simpl. rewrite decide_True by done.
  apply Forall_app. split; [done|]. constructor; [|done].
  split; simpl; [done|]. by constructor.
Qed.

Section collecting.
Context (E : env) (loc : location) (now : datetime) (fcs : list forecast).

Local Abbreviation max_degree := (max_degree_difference_for_nearest_weather_sensor E).

Lemma process_spec_collects fc fc_datetime ts fr sp tr :
  fc ∈ fcs → fc !! "dt" = Some (VNum ts) →
  as_server_time_fromtimestamp E ts = inr fc_datetime →
  collected E now fcs (db_forecasts fr) →
  post (process_spec E loc now fc fc_datetime fr sp) tr
    (λ fr' _, collected E now fcs (db_forecasts fr')) (λ _, True).
Proof.
  intros Hfc Hdt Hts [Hkeys Hdb]. unfold post, process_spec.
  destruct (fc !! weather_sensor_name sp) as [raw|]; [|done].
  unfold mbind at 1, M_bind at 1.
  destruct (get_weather_sensor E sp loc (weather_sensors fr) max_degree tr)
    as [[e|[[s|] ws']] tr']; [done| |done].
  assert (∀ val src,
    collected E now fcs (db_append s {| event_start := fc_datetime; belief_time := now;
                              event_value := val; sensor := s; source := src |}
                 (db_ensure s (db_forecasts fr)))) as Hstep.
  { intros val src. split; [by apply db_step_keys|].
    apply batches_ok_step; [done|]. repeat split. by exists fc, ts. }
  destruct (decide (fm_sensor_name sp = "irradiance")).
  - unfold mbind, M_bind, lift, mret, M_ret.
    destruct (cloud_ratio raw); [done|]. apply Hstep.
  - apply Hstep.
Qed.

Lemma process_forecast_collects vars fc tr :
  fc ∈ fcs → collected E now fcs vars.2 →
  post (process_forecast E loc now vars fc) tr
    (λ vars' _, collected E now fcs vars'.2) (λ _, True).
Proof.
  intros Hfc Hvars. unfold process_forecast.
  destruct (fc !! "dt") as [[ts| | |]|] eqn:Hdt; try done.
  unfold post, mbind at 1, M_bind at 1, lift.
  destruct (as_server_time_fromtimestamp E ts) as [e|fc_datetime] eqn:Hts; [done|].
  pose proof (post_foldM (process_spec E loc now fc fc_datetime)
                (λ fr _, collected E now fcs (db_forecasts fr)) (λ _, True) (mapping E)) as Hloop.
  unfold process_specs, mbind, M_bind.
  match goal with
  | |- context [foldM ?f ?a ?l ?t] =>
      specialize (Hloop (λ fr sp tr' _ Hfr,
                    process_spec_collects fc fc_datetime ts fr sp tr'
                      Hfc Hdt Hts Hfr) a t Hvars);
      unfold post in Hloop; by destruct (foldM f a l t) as [[?|?] ?]
  end.
Qed.
End collecting.

(** What a location returns was collected from the hours that the
    dispatcher returned for it. *)
Lemma process_location_collects E api_key k loc tr db tr' :
  process_location E api_key k loc tr = (inr db, tr') →
  ∃ t fcs,
    call_api E k api_key loc = inr (t, fcs) ∧
    collected E (server_now E k) fcs db.
Proof.
  unfold process_location, mbind, M_bind, emit, lift.
  destruct (call_api E k api_key loc) as [e|[t fcs]] eqn:Hcall; [done|].
  intros Hrun. exists t, fcs. split; [done|].
  pose proof (post_foldM (process_forecast E loc (server_now E k))
                (λ vars _, collected E (server_now E k) fcs vars.2)
                (λ _, True) fcs) as Hloop.
  revert Hrun.
  destruct (decide _); unfold mret, M_ret;
    match goal with
    | |- context [foldM ?f ?a ?l ?t] =>
        specialize (Hloop (λ vars fc tr'' Hfc Hvars,
                      process_forecast_collects E loc _ fcs vars fc tr'' Hfc Hvars)
                      a t);
        unfold post in Hloop; destruct (foldM f a l t) as [[?|vars] ?]; [done|];
        intros [= <- _]; apply Hloop; split; [apply NoDup_nil_2|constructor]
    end.
Qed.

(** X8: the sensors of the batches of a location are pairwise distinct, and
    every belief of a batch is a belief of the sensor of that batch: beliefs
    are grouped by sensor, one batch per sensor. *)
Theorem beliefs_are_grouped_by_sensor E api_key k loc tr db tr' :
  process_location E api_key k loc tr = (inr db, tr') →
  NoDup db.*1 ∧
  ∀ s bs b, (s, bs) ∈ db → b ∈ bs → sensor b = s.
Proof.
  intros Hrun.
  destruct (process_location_collects _ _ _ _ _ _ _ Hrun)
    as (t & fcs & _ & Hkeys & Hdb).
  split; [done|]. intros s bs b Hsb Hb.
  apply (proj1 (Forall_forall _ _) Hdb) in Hsb as [_ Hbs].
  by apply (proj1 (Forall_forall _ _) Hbs) in Hb as [? _].
Qed.

Lemma beliefs_are_grouped_by_sensor_witness :
  ∃ db tr',
    process_location (Fixture.world Fixture.table) "key" 0 Fixture.utrecht []
      = (inr db, tr') ∧
    NoDup db.*1 ∧
    ∀ s bs b, (s, bs) ∈ db → b ∈ bs → sensor b = s.
Proof.
  assert (is_ok (process_location (Fixture.world Fixture.table) "key" 0
                   Fixture.utrecht []).1 = true) as Hok by (vm_compute; reflexivity).
  destruct (process_location (Fixture.world Fixture.table) "key" 0
              Fixture.utrecht []) as [[e|db] tr'] eqn:Hrun; [discriminate Hok|].
  exists db, tr'. split; [reflexivity|].
  exact (beliefs_are_grouped_by_sensor _ _ _ _ _ _ _ Hrun).
Defined.

(** X9: the event start of every belief that a location collects is the
    converted timestamp [dt] of one of the hours that the dispatcher returned
    for that location. *)
Theorem event_start_comes_from_an_hour E api_key k loc tr db tr' :
  process_location E api_key k loc tr = (inr db, tr') →
  ∃ t fcs,
    call_api E k api_key loc = inr (t, fcs) ∧
    ∀ s bs b, (s, bs) ∈ db → b ∈ bs →
      ∃ fc ts, fc ∈ fcs ∧ fc !! "dt" = Some (VNum ts) ∧
               as_server_time_fromtimestamp E ts = inr (event_start b).
Proof.
  intros Hrun.
  destruct (process_location_collects _ _ _ _ _ _ _ Hrun)
    as (t & fcs & Hcall & _ & Hdb).
  exists t, fcs. split; [done|]. intros s bs b Hsb Hb.
  apply (proj1 (Forall_forall _ _) Hdb) in Hsb as [_ Hbs].
  by apply (proj1 (Forall_forall _ _) Hbs) in Hb as (_ & _ & ?).
Qed.

Lemma event_start_comes_from_an_hour_witness :
  ∃ db tr' t fcs,
    process_location (Fixture.world Fixture.table) "key" 0 Fixture.utrecht []
      = (inr db, tr') ∧
    call_api (Fixture.world Fixture.table) 0 "key" Fixture.utrecht = inr (t, fcs) ∧
    ∀ s bs b, (s, bs) ∈ db → b ∈ bs →
      ∃ fc ts, fc ∈ fcs ∧ fc !! "dt" = Some (VNum ts) ∧
               Fixture.microseconds ts = inr (event_start b).
Proof.
  assert (is_ok (process_location (Fixture.world Fixture.table) "key" 0
                   Fixture.utrecht []).1 = true) as Hok by (vm_compute; reflexivity).
  destruct (process_location (Fixture.world Fixture.table) "key" 0
              Fixture.utrecht []) as [[e|db] tr'] eqn:Hrun; [discriminate Hok|].
  destruct (event_start_comes_from_an_hour _ _ _ _ _ _ _ Hrun)
    as (t & fcs & Hcall & Hstart).
  by exists db, tr', t, fcs.
Defined.

(** ** The saving loop *)

Lemma saved_snoc tr ev :
  saved (tr ++ [ev]) =
  saved tr ++ match ev with SaveToDb beliefs => [beliefs] | _ => [] end.
Proof. unfold saved. rewrite omap_app. by destruct ev. Qed.

(** The saving loop only saves and logs. *)
Lemma save_batches_trace E db :
  ∀ tr, ∃ new,
    (save_batches E db tr).2 = tr ++ new ∧
    Forall (λ ev, is_save_or_info ev = true) new.
Proof.
  induction db as [|[s beliefs] db IH]; intros tr; simpl.
  { exists []. by rewrite app_nil_r. }
  destruct (decide (length beliefs = 0%nat)).
  { exists []. by rewrite app_nil_r. }
  unfold mbind, M_bind, emit, mret, M_ret.
  repeat destruct (decide _);
    match goal with
    | |- context [save_batches E db ?t] =>
        destruct (IH t) as (new & -> & Hnew)
    end;
    rewrite <- ?app_assoc; eexists; (split; [reflexivity|]);
    by repeat constructor.
Qed.

Lemma save_batches_all E db :
  Forall (λ sb : Sensor.t * list TimedBelief, sb.2 ≠ []) db →
  ∀ tr, ∃ tr2,
    save_batches E db tr = (inr (), tr2) ∧ saved tr2 = saved tr ++ db.*2.
Proof.
  induction 1 as [|[s beliefs] db Hne _ IH]; intros tr; simpl.
  { exists tr. by rewrite app_nil_r. }
  rewrite decide_False by (by destruct beliefs).
  unfold mbind, M_bind, emit, mret, M_ret.
  repeat destruct (decide _);
    match goal with
    | |- context [save_batches E db ?t] =>
        destruct (IH t) as (tr2 & -> & Hsaved)
    end;
    exists tr2; (split; [done|]);
    rewrite Hsaved, ?saved_snoc; simpl; by rewrite ?app_nil_r, <- ?app_assoc.
Qed.

(** X10: no batch of a location is empty, so the saving loop, run on what a
    location collected, never raises its "nothing to put in the database"
    exception: it hands every batch to [save_to_db], once and in the order
    in which the sensors were first met. *)
Theorem saving_loop_hands_over_every_batch E api_key k loc tr db tr' :
  process_location E api_key k loc tr = (inr db, tr') →
  Forall (λ sb, sb.2 ≠ []) db ∧
  ∀ tr0, ∃ tr2,
    save_batches E db tr0 = (inr (), tr2) ∧ saved tr2 = saved tr0 ++ db.*2.
Proof.
  intros Hrun.
  destruct (process_location_collects _ _ _ _ _ _ _ Hrun)
    as (t & fcs & _ & _ & Hdb).
  assert (Forall (λ sb : Sensor.t * list TimedBelief, sb.2 ≠ []) db) as Hne.
  { eapply Forall_impl; [exact Hdb|]. by intros sb [? _]. }
  split; [done|]. by apply save_batches_all.
Qed.

Lemma saving_loop_hands_over_every_batch_witness :
  ∃ db tr',
    process_location (Fixture.world Fixture.table) "key" 0 Fixture.utrecht []
      = (inr db, tr') ∧
    Forall (λ sb, sb.2 ≠ []) db ∧
    ∀ tr0, ∃ tr2,
      save_batches (Fixture.world Fixture.table) db tr0 = (inr (), tr2) ∧
      saved tr2 = saved tr0 ++ db.*2.
Proof.
  assert (is_ok (process_location (Fixture.world Fixture.table) "key" 0
                   Fixture.utrecht []).1 = true) as Hok by (vm_compute; reflexivity).
  destruct (process_location (Fixture.world Fixture.table) "key" 0
              Fixture.utrecht []) as [[e|db] tr'] eqn:Hrun; [discriminate Hok|].
  exists db, tr'. split; [reflexivity|].
  exact (saving_loop_hands_over_every_batch _ _ _ _ _ _ _ Hrun).
Defined.

(** ** The shape of a run *)

Lemma save_or_info_not_call new tr :
  Forall (λ ev, is_save_or_info ev = true) new →
  api_calls (tr ++ new) = api_calls tr.
Proof.
  intros Hnew. unfold api_calls. rewrite omap_app.
  assert (omap (λ ev, match ev with CallApi _ loc => Some loc | _ => None end) new
          = []) as ->; [|by rewrite app_nil_r].
  induction Hnew as [|ev new Hev _ IH]; [done|]. simpl.
  by destruct ev.
Qed.

(** X11: a run first collects and then saves: its trace is a part without
    any call of [save_to_db], made by the loop over the locations, followed
    by a part that holds nothing but such calls and their status records. *)
Theorem saving_follows_collecting E api_key locations :
  ∃ tr1 tr2,
    (save_forecasts_in_db E api_key locations []).2 = tr1 ++ tr2 ∧
    no_saves tr1 ∧
    Forall (λ ev, is_save_or_info ev = true) tr2.
Proof.
  pose proof (for_locations_no_saves E api_key locations 0 None []) as Hquiet.
  unfold post in Hquiet. unfold save_forecasts_in_db, mbind, M_bind.
  destruct (for_locations E api_key 0 locations None []) as [[e|[db|]] tr].
  - exists tr, []. rewrite app_nil_r. repeat split; [|done]. apply Hquiet. constructor.
  - destruct (save_batches_trace E db tr) as (new & Hnew & Honly).
    exists tr, new. repeat split; [done| |done]. apply Hquiet. constructor.
  - exists tr, []. rewrite app_nil_r. repeat split; [|done]. apply Hquiet. constructor.
Qed.

Lemma api_calls_snoc tr ev :
  api_calls (tr ++ [ev]) =
  api_calls tr ++ match ev with CallApi _ loc => [loc] | _ => [] end.
Proof. unfold api_calls. rewrite omap_app. by destruct ev. Qed.

Lemma process_location_api_calls E api_key k loc tr :
  let called tr' := api_calls tr' = api_calls tr ++ [loc] in
  post (process_location E api_key k loc) tr (λ _ tr', called tr') called.
Proof.
  intros called. eapply post_mono.
  - apply (process_location_invariant E api_key k loc tr
             (λ _ _ tr', called tr') called); unfold called.
    + done.
    + intros tr' [->|[diff ->]].
      * by rewrite api_calls_snoc.
      * change [CallApi api_key loc; SkewWarning diff]
          with ([CallApi api_key loc] ++ [SkewWarning diff]).
        rewrite app_assoc, !api_calls_snoc. simpl. by rewrite app_nil_r.
    + intros _ _ tr' label t Htr'. rewrite api_calls_snoc, Htr'. simpl.
      by rewrite app_nil_r.
    + intros _ _ tr' n v _ Htr'. rewrite api_calls_snoc, Htr'. simpl.
      by rewrite app_nil_r.
    + done.
  - by intros db tr' [_ Htr'].
  - done.
Qed.

Lemma for_locations_api_calls E api_key locations :
  ∀ k db tr,
    post (for_locations E api_key k locations db) tr
      (λ _ tr', api_calls tr' = api_calls tr ++ locations)
      (λ tr', ∃ reached, reached `prefix_of` locations ∧
                         api_calls tr' = api_calls tr ++ reached).
Proof.
  induction locations as [|loc locations IH]; intros k db tr; simpl.
  { apply post_ret. by rewrite app_nil_r. }
  eapply post_bind.
  - eapply post_mono; [apply process_location_api_calls| |].
    + intros db' tr' Htr'. exact Htr'.
    + intros tr' Htr'. exists [loc]. split; [|done].
      by apply (prefix_app_r [loc] [loc] locations).
  - intros db' tr' Htr'. simpl in Htr'. eapply post_mono; [apply IH| |].
    + intros _ tr'' ->. rewrite Htr'. by rewrite <- app_assoc.
    + intros tr'' (reached & Hreached & ->). exists (loc :: reached). split.
      * by apply prefix_cons.
      * rewrite Htr'. by rewrite <- app_assoc.
Qed.

(** X12: the dispatcher is called once for every location, in the order of
    the list and without a retry: the locations called in a run are a
    prefix of the list, and the whole list when the run ends well. *)
Theorem dispatcher_called_once_per_location E api_key locations :
  api_calls (save_forecasts_in_db E api_key locations []).2 `prefix_of` locations ∧
  (is_ok (save_forecasts_in_db E api_key locations []).1 = true →
   api_calls (save_forecasts_in_db E api_key locations []).2 = locations).
Proof.
  pose proof (for_locations_api_calls E api_key locations 0 None []) as Hloop.
  unfold post in Hloop. unfold save_forecasts_in_db, mbind, M_bind.
  destruct (for_locations E api_key 0 locations None []) as [[e|[db|]] tr];
    simpl in *.
  - destruct Hloop as (reached & Hreached & ->). by split.
  - destruct (save_batches_trace E db tr) as (new & Hnew & Honly).
    rewrite Hnew, save_or_info_not_call, Hloop by done. by split.
  - rewrite Hloop. by split.
Qed.

(** X13: on an empty list of locations the run raises the error of reading
    the variable [db_forecasts], which no location has bound, and calls
    nothing. *)
Theorem no_locations_raise E api_key tr :
  save_forecasts_in_db E api_key [] tr
  = (inl (UnboundLocalError "db_forecasts"), tr).
Proof. reflexivity. Qed.

(** ** Runs that stop early *)

Lemma for_locations_raises_at E api_key locations loc :
  ∀ k0 i db tr,
    locations !! i = Some loc →
    (∀ tr', is_ok (process_location E api_key (k0 + i) loc tr').1 = false) →
    is_ok (for_locations E api_key k0 locations db tr).1 = false.
Proof.
  induction locations as [|l locations IH]; intros k0 i db tr Hi Hraise; [done|].
  simpl. unfold mbind, M_bind. destruct i as [|i]; simpl in Hi.
  - injection Hi as ->. rewrite Nat.add_0_r in Hraise. specialize (Hraise tr).
    by destruct (process_location E api_key k0 loc tr) as [[e|db'] tr'].
  - destruct (process_location E api_key k0 l tr) as [[e|db'] tr']; [done|].
    apply (IH (S k0) i); [done|]. intros tr''.
    by replace (S k0 + i)%nat with (k0 + S i)%nat by lia.
Qed.

(** An exception of the loop over the locations ends the run with nothing
    saved. *)
Lemma raises_before_saving E api_key locations :
  is_ok (for_locations E api_key 0 locations None []).1 = false →
  ∃ e tr,
    save_forecasts_in_db E api_key locations [] = (inl e, tr) ∧ no_saves tr.
Proof.
  intros Hraise.
  pose proof (for_locations_no_saves E api_key locations 0 None []) as Hquiet.
  unfold post in Hquiet. unfold save_forecasts_in_db, mbind, M_bind.
  destruct (for_locations E api_key 0 locations None []) as [[e|db] tr]; [|done].
  exists e, tr. split; [done|]. apply Hquiet. constructor.
Qed.

(** X14: when the dispatcher raises for a location, the run raises, and
    nothing is saved, not even what the locations before it collected. *)
Theorem dispatcher_failure_saves_nothing E api_key locations k loc err :
  locations !! k = Some loc →
  call_api E k api_key loc = inl err →
  ∃ e tr,
    save_forecasts_in_db E api_key locations [] = (inl e, tr) ∧ no_saves tr.
Proof.
  intros Hk Hcall. apply raises_before_saving.
  apply (for_locations_raises_at E api_key locations loc 0 k); [done|].
  intros tr'. simpl. unfold process_location, mbind, M_bind, emit, lift.
  by rewrite Hcall.
Qed.

Lemma dispatcher_failure_saves_nothing_witness :
  ∃ e tr,
    save_forecasts_in_db Fixture.failing_world "key"
      [Fixture.utrecht; Fixture.paris] [] = (inl e, tr) ∧
    no_saves tr.
Proof.
  apply (dispatcher_failure_saves_nothing Fixture.failing_world "key"
           [Fixture.utrecht; Fixture.paris] 1 Fixture.paris AssertionError);
    reflexivity.
Defined.

(** X15: an hour record without a numeric timestamp [dt] makes the run raise
    with nothing saved, whatever the other hours and locations hold. *)
Theorem hour_without_timestamp_aborts E api_key locations k loc t fcs fc :
  locations !! k = Some loc →
  call_api E k api_key loc = inr (t, fcs) →
  fc ∈ fcs →
  (∀ ts, fc !! "dt" ≠ Some (VNum ts)) →
  ∃ e tr,
    save_forecasts_in_db E api_key locations [] = (inl e, tr) ∧ no_saves tr.
Proof.
  intros Hk Hcall Hfc Hdt. apply raises_before_saving.
  apply (for_locations_raises_at E api_key locations loc 0 k); [done|].
  intros tr'. simpl.
  assert (∀ tr'', is_ok (foldM (process_forecast E loc (server_now E k)) (∅, [])
                           fcs tr'').1 = false) as Hloop.
  { intros tr''.
    apply (foldM_raises _ (λ _, True) _ fc Hfc); [| |done].
    - intros vars fc' tr3 _. unfold post.
      by destruct (process_forecast E loc (server_now E k) vars fc' tr3) as [[?|?] ?].
    - intros vars tr3 _. unfold process_forecast.
      destruct (fc !! "dt") as [[ts| | |]|] eqn:Hfcdt; try done.
      by destruct (Hdt ts). }
  unfold process_location, mbind, M_bind, emit, lift. rewrite Hcall.
  destruct (decide _); unfold mret, M_ret;
    match goal with
    | |- context [foldM ?f ?a ?l ?t] =>
        specialize (Hloop t); by destruct (foldM f a l t) as [[?|?] ?]
    end.
Qed.

Lemma hour_without_timestamp_aborts_witness :
  ∃ e tr,
    save_forecasts_in_db Fixture.undated_world "key" [Fixture.utrecht] []
      = (inl e, tr) ∧
    no_saves tr.
Proof.
  apply (hour_without_timestamp_aborts Fixture.undated_world "key"
           [Fixture.utrecht] 0 Fixture.utrecht 1700000100000000
           [Fixture.first_hour; Fixture.undated_hour] Fixture.undated_hour).
  - reflexivity.
  - reflexivity.
  - right. by left.
  - intros ts. vm_compute. discriminate.
Defined.

(** ** Hours and sensors that yield nothing *)

(** X16: a specification whose field is present but for whose name no sensor
    is registered is passed over in silence: no belief, no warning and no
    exception; at most the registry was asked, and the absence is cached. *)
Theorem unregistered_sensor_is_skipped E loc now fc fc_datetime fr sp tr raw :
  fc !! weather_sensor_name sp = Some raw →
  resolved E loc (weather_sensors fr) (fm_sensor_name sp) = None →
  ∃ fr' tr',
    process_spec E loc now fc fc_datetime fr sp tr = (inr fr', tr') ∧
    db_forecasts fr' = db_forecasts fr ∧
    data_source fr' = data_source fr ∧
    weather_sensors fr' !! fm_sensor_name sp = Some None ∧
    (tr' = tr ∨
     tr' = tr ++ [FindWeatherSensor loc
                    (max_degree_difference_for_nearest_weather_sensor E)
                    (fm_sensor_name sp)]).
Proof.
  intros Hfield Hnone. unfold process_spec. rewrite Hfield.
  unfold mbind at 1, M_bind at 1. revert Hnone.
  unfold get_weather_sensor, resolved, mbind, M_bind, emit, mret, M_ret.
  destruct (weather_sensors fr !! fm_sensor_name sp) as [c|] eqn:Hc.
  - intros ->. do 2 eexists. split; [reflexivity|]. simpl. by eauto.
  - intros ->. do 2 eexists. split; [reflexivity|]. simpl.
    rewrite lookup_insert_eq. by eauto.
Qed.

Lemma unregistered_sensor_is_skipped_witness :
  ∃ fr' tr',
    process_spec Fixture.empty_world Fixture.utrecht Fixture.noon
        Fixture.first_hour Fixture.first_start Fixture.fresh
        (Fixture.spec "temperature" "temp") []
      = (inr fr', tr') ∧
    db_forecasts fr' = [] ∧
    tr' = [FindWeatherSensor Fixture.utrecht (NInt 1) "temperature"].
Proof.
  destruct (unregistered_sensor_is_skipped Fixture.empty_world Fixture.utrecht
              Fixture.noon Fixture.first_hour Fixture.first_start Fixture.fresh
              (Fixture.spec "temperature" "temp") [] (VNum (NFloat 11.5))
              eq_refl eq_refl)
    as (fr' & tr' & Hrun & Hdb & _ & _ & Htr).
  exists fr', tr'. split; [exact Hrun|]. split; [exact Hdb|].
  destruct Htr as [->| ->]; [|reflexivity].
  vm_compute in Hrun. by injection Hrun.
Defined.

(** X17: an hour that carries none of the fields of the specifications run
    on it leaves the loop variables as they are and logs one warning for
    every specification, in the order of the table. *)
Theorem hour_without_fields_only_warns E loc now fc fc_datetime fr specs tr :
  Forall (λ sp, fc !! weather_sensor_name sp = None) specs →
  process_specs E loc now fc fc_datetime fr specs tr =
  (inr fr, tr ++ map (λ sp, Warning (weather_sensor_name sp) fc_datetime) specs).
Proof.
  intros Hspecs. revert tr. unfold process_specs.
  induction Hspecs as [|sp specs Hsp _ IH]; intros tr; simpl.
  { by rewrite app_nil_r. }
  unfold mbind at 1, M_bind at 1, process_spec at 1. rewrite Hsp.
  unfold mbind at 1, M_bind at 1, emit, mret, M_ret.
  rewrite IH. by rewrite <- app_assoc.
Qed.

Lemma hour_without_fields_only_warns_witness :
  process_specs (Fixture.world Fixture.table) Fixture.utrecht Fixture.noon
    Fixture.bare_hour Fixture.first_start Fixture.fresh Fixture.table []
  = (inr Fixture.fresh,
     [Warning "temp" Fixture.first_start; Warning "wind_speed" Fixture.first_start;
      Warning "clouds" Fixture.first_start; Warning "clouds" Fixture.first_start]).
Proof.
  apply (hour_without_fields_only_warns (Fixture.world Fixture.table)
           Fixture.utrecht Fixture.noon Fixture.bare_hour Fixture.first_start
           Fixture.fresh Fixture.table []).
  by repeat constructor.
Defined.

Lemma only_the_last_location_is_saved_witness :
  ∃ db tr,
    for_locations (Fixture.world Fixture.table) "key" 0 [Fixture.utrecht] None []
      = (inr db, tr) ∧
    save_forecasts_in_db (Fixture.world Fixture.table) "key"
      ([Fixture.utrecht] ++ [Fixture.paris]) [] =
    (process_location (Fixture.world Fixture.table) "key" 1 Fixture.paris
       ≫= save_batches (Fixture.world Fixture.table)) tr.
Proof.
  assert (is_ok (for_locations (Fixture.world Fixture.table) "key" 0
                   [Fixture.utrecht] None []).1 = true) as Hok
    by (vm_compute; reflexivity).
  destruct (for_locations (Fixture.world Fixture.table) "key" 0
              [Fixture.utrecht] None []) as [[e|db] tr] eqn:Hinit;
    [discriminate Hok|].
  exists db, tr. split; [reflexivity|].
  exact (only_the_last_location_is_saved (Fixture.world Fixture.table) "key"
           [Fixture.utrecht] Fixture.paris db tr Hinit).
Defined.

(** ** The table of supported sensors *)

(** X19: [get_supported_sensor_spec] returns the first entry of the table
    that bears the name, so an entry that repeats a name is never returned;
    and it returns nothing exactly when no entry bears the name. *)
Theorem get_supported_sensor_spec_first E name :
  (∀ sp, get_supported_sensor_spec E name = Some sp ↔
     ∃ i, mapping E !! i = Some sp ∧ fm_sensor_name sp = name ∧
          ∀ j sp', mapping E !! j = Some sp' → (j < i)%nat →
                   fm_sensor_name sp' ≠ name) ∧
  (get_supported_sensor_spec E name = None ↔
     Forall (λ sp, fm_sensor_name sp ≠ name) (mapping E)).
Proof.
  unfold get_supported_sensor_spec. split.
  - intros sp. split.
    + destruct (list_find _ _) as [[i sp']|] eqn:Hfind; [|done].
      intros [= <-]. apply list_find_Some in Hfind as (Hi & Hname & Hfirst).
      exists i. eauto.
    + intros (i & Hi & Hname & Hfirst).
      assert (list_find (λ sp', fm_sensor_name sp' = name) (mapping E)
              = Some (i, sp)) as ->; [|done].
      apply list_find_Some. eauto.
  - rewrite fmap_None. apply list_find_None.
Qed.

(** ** The dispatcher *)

(** X20: with a provider setting other than OWM and WAPI the dispatcher
    raises the configuration error, whatever the network would answer. *)
Theorem invalid_provider_raises N E k api_key loc :
  Provider.WEATHER_PROVIDER N ∉ ["OWM"; "WAPI"] →
  Provider.call_api N E k api_key loc = inl (Exception InvalidProviderName).
Proof. intros Hprovider. unfold Provider.call_api. by rewrite decide_True. Qed.

Lemma invalid_provider_raises_witness :
  Provider.call_api (Fixture.wires "" 200) (Fixture.world Fixture.table) 0
    "key" Fixture.utrecht = inl (Exception InvalidProviderName).
Proof.
  apply (invalid_provider_raises (Fixture.wires "" 200)
           (Fixture.world Fixture.table) 0 "key" Fixture.utrecht).
  apply (bool_decide_unpack _). vm_compute. reflexivity.
Defined.



(** The window of 48 hours, for days and an hour index as the adapter has
    them. *)
Lemma normalised_window (d1 d2 d3 : forecastday) (h : Z) :
  length (hour d1) = 24%nat → length (hour d2) = 24%nat →
  length (hour d3) = 24%nat → 0 ≤ h < 24 →
  Forall (λ e, has_word e ∧ divisions_defined e)
    (slice (hour d1 ++ hour d2 ++ hour d3) h (h + 48)) →
  ∃ out, process_weatherapi_data [d1; d2; d3] h = inr out ∧
    length out = 48%nat ∧
    ∀ i, (i < 48)%nat →
      ∃ e y, (hour d1 ++ hour d2 ++ hour d3) !! (Z.to_nat h + i)%nat = Some e ∧
             map_weather_api_to_owm e = inr y ∧ out !! i = Some y.
Proof.
  intros H1 H2 H3 Hh Hwin.
  pose proof (combined_lookup d1 d2 d3 h H1 H2 H3 Hh) as Hlen.
  set (window := slice (hour d1 ++ hour d2 ++ hour d3) h (h + 48)) in *.
  destruct (map_result_ok map_weather_api_to_owm window) as [out Hout].
  { eapply Forall_impl; [exact Hwin|]. intros e [? ?].
    by apply map_weather_api_to_owm_ok. }
  exists out. split; [exact Hout|]. split.
  { rewrite (map_result_length _ _ _ Hout). apply slice_window_length; lia. }
  intros i Hi.
  destruct (lookup_lt_is_Some_2 window i) as [e He].
  { unfold window. rewrite slice_window_length by lia. done. }
  destruct (map_result_lookup _ _ _ _ _ Hout He) as (y & Hy & Hmap).
  exists e, y. unfold window in He. rewrite slice_window_lookup in He by lia. done.
Qed.

(** X22: through the dispatcher, the WeatherAPI adapter turns an answer of
    status 200 with three days of 24 well-formed hours into 48 hours that
    start at the local hour of the place: the [i]-th is the image of hour
    [hour_no + i] of the three days. *)
Theorem weatherapi_gives_48_hours N E k api_key loc d1 d2 d3 h t :
  let res := Provider.get_weatherapi N k api_key loc 3 in
  let data := Provider.json res in
  Provider.WEATHER_PROVIDER N = "WAPI" →
  Provider.status_code res = 200 →
  Provider.forecast_forecastday data = [d1; d2; d3] →
  length (hour d1) = 24%nat → length (hour d2) = 24%nat →
  length (hour d3) = 24%nat →
  Provider.local_hour N (Provider.location_tz_id data)
    (Provider.location_localtime_epoch data) = inr h →
  0 ≤ h < 24 →
  as_server_time_fromtimestamp E (NInt (Provider.location_localtime_epoch data))
    = inr t →
  Forall (λ e, has_word e ∧ divisions_defined e)
    (slice (hour d1 ++ hour d2 ++ hour d3) h (h + 48)) →
  ∃ out,
    Provider.call_api N E k api_key loc
      = inr (Provider.replace_second_microsecond N t, out) ∧
    length out = 48%nat ∧
    ∀ i, (i < 48)%nat →
      ∃ e y, (hour d1 ++ hour d2 ++ hour d3) !! (Z.to_nat h + i)%nat = Some e ∧
             map_weather_api_to_owm e = inr y ∧ out !! i = Some y.
Proof.
  intros res data Hprovider Hstatus Hdays H1 H2 H3 Hhour Hh Ht Hwin.
  destruct (normalised_window d1 d2 d3 h H1 H2 H3 Hh Hwin)
    as (out & Hout & Hlen & Hentries).
  exists out. split; [|done].
  unfold Provider.call_api, Provider.call_weatherapi. rewrite Hprovider. simpl.
  fold res. rewrite decide_True by done. fold data.
  rewrite Hhour. simpl. rewrite Ht. simpl. rewrite Hdays, Hout. done.
Qed.

Lemma weatherapi_gives_48_hours_witness :
  ∃ out,
    Provider.call_api (Fixture.wires "WAPI" 200) (Fixture.world Fixture.table) 0
      "key" Fixture.utrecht = inr (1700000100000000, out) ∧
    length out = 48%nat.
Proof.
  destruct (weatherapi_gives_48_hours (Fixture.wires "WAPI" 200)
              (Fixture.world Fixture.table) 0 "key" Fixture.utrecht
              (Fixture.day "Sunny") (Fixture.day "Partly cloudy")
              (Fixture.day "Mist") 23 1700000100000000)
    as (out & Hcall & Hlen & _);
    [reflexivity | reflexivity | reflexivity | reflexivity | reflexivity
    | reflexivity | reflexivity | lia | reflexivity | |].
  - apply (bool_decide_unpack _). vm_compute. reflexivity.
  - exists out. split; [exact Hcall|exact Hlen].
Defined.

(** X23: when the assembler reaches the providers through the dispatcher
    and the provider setting is neither OWM nor WAPI, a run over at least one
    location stops at the first one with the configuration error: the
    dispatcher was called once, no sensor was looked up and nothing was
    saved. *)
Theorem misconfigured_provider_stops_the_run N E api_key loc rest :
  Provider.WEATHER_PROVIDER N ∉ ["OWM"; "WAPI"] →
  save_forecasts_in_db (connect N E) api_key (loc :: rest) []
  = (inl (Exception InvalidProviderName), [CallApi api_key loc]).
Proof.
  intros Hprovider.
  unfold save_forecasts_in_db, mbind, M_bind. simpl.
  unfold mbind, M_bind, process_location, mbind, M_bind, emit, lift. simpl.
  unfold Provider.call_api. by rewrite decide_True.
Qed.

Lemma misconfigured_provider_stops_the_run_witness :
  save_forecasts_in_db
    (connect (Fixture.wires "OpenWeather" 200) (Fixture.world Fixture.table))
    "key" [Fixture.utrecht; Fixture.paris] []
  = (inl (Exception InvalidProviderName), [CallApi "key" Fixture.utrecht]).
Proof.
  apply (misconfigured_provider_stops_the_run (Fixture.wires "OpenWeather" 200)
           (Fixture.world Fixture.table) "key" Fixture.utrecht [Fixture.paris]).
  apply (bool_decide_unpack _). vm_compute. reflexivity.
Defined.

(** ** How much a location collects *)

Lemma total_app (db db' : beliefs_per_sensor) :
  total (db ++ db') = (total db + total db')%nat.
Proof. unfold total. by rewrite fmap_app, concat_app, length_app. Qed.

Lemma total_append s b (db : beliefs_per_sensor) :
  s ∈ db.*1 → total (db_append s b db) = S (total db).
Proof.
  induction db as [|[s' bs] db IH]; simpl; [by intros ?%elem_of_nil|].
  intros Hin. change ((s', bs) :: db) with ([(s', bs)] ++ db).
  destruct (decide (s' = s)) as [->|Hne].
  - change ((s, bs ++ [b]) :: db) with ([(s, bs ++ [b])] ++ db).
    rewrite !total_app. unfold total. simpl.
    rewrite !app_nil_r, length_app. simpl. lia.
  - change ((s', bs) :: db_append s b db) with ([(s', bs)] ++ db_append s b db).
    rewrite !total_app, IH; [lia|].
    apply elem_of_cons in Hin as [?|?]; [congruence|done].
Qed.

Lemma total_step s b (db : beliefs_per_sensor) :
  total (db_append s b (db_ensure s db)) = S (total db).
Proof.
  rewrite total_append by apply db_ensure_elem. f_equal.
  unfold db_ensure. destruct (decide (s ∈ db.*1)); [done|].
  rewrite total_app. unfold total. simpl. lia.
Qed.

Section counting.
Context (E : env) (loc : location) (now : datetime).

Local Abbreviation max_degree := (max_degree_difference_for_nearest_weather_sensor E).

Lemma process_spec_adds_one fc fc_datetime fr sp tr n :
  (total (db_forecasts fr) ≤ n)%nat →
  post (process_spec E loc now fc fc_datetime fr sp) tr
    (λ fr' _, (total (db_forecasts fr') ≤ S n)%nat) (λ _, True).
Proof.
  intros Hfr. unfold post, process_spec.
  destruct (fc !! weather_sensor_name sp) as [raw|]; [|simpl; lia].
  unfold mbind at 1, M_bind at 1.
  destruct (get_weather_sensor E sp loc (weather_sensors fr) max_degree tr)
    as [[e|[[s|] ws']] tr']; [done| |simpl; lia].
  destruct (decide (fm_sensor_name sp = "irradiance")).
  - unfold mbind, M_bind, lift, mret, M_ret.
    destruct (cloud_ratio raw); [done|]. simpl. rewrite total_step. lia.
  - simpl. rewrite total_step. lia.
Qed.

Lemma process_specs_adds fc fc_datetime specs :
  ∀ fr tr n,
    (total (db_forecasts fr) ≤ n)%nat →
    post (process_specs E loc now fc fc_datetime fr specs) tr
      (λ fr' _, (total (db_forecasts fr') ≤ n + length specs)%nat) (λ _, True).
Proof.
  unfold process_specs.
  induction specs as [|sp specs IH]; intros fr tr n Hfr; simpl.
  { apply post_ret. lia. }
  eapply post_bind; [by apply process_spec_adds_one|].
  intros fr' tr' Hfr'. eapply post_mono; [by apply IH| |done].
  intros fr'' tr'' Hfr''. simpl in *. lia.
Qed.

Lemma process_forecast_adds vars fc tr n :
  (total vars.2 ≤ n)%nat →
  post (process_forecast E loc now vars fc) tr
    (λ vars' _, (total vars'.2 ≤ n + length (mapping E))%nat) (λ _, True).
Proof.
  intros Hvars. apply post_process_forecast; [done|]. intros fc_datetime.
  by apply process_specs_adds.
Qed.

Lemma process_forecasts_add fcs :
  ∀ vars tr n,
    (total vars.2 ≤ n)%nat →
    post (foldM (process_forecast E loc now) vars fcs) tr
      (λ vars' _, (total vars'.2 ≤ n + length fcs * length (mapping E))%nat)
      (λ _, True).
Proof.
  induction fcs as [|fc fcs IH]; intros vars tr n Hvars; simpl.
  { apply post_ret. lia. }
  eapply post_bind; [by apply process_forecast_adds|].
  intros vars' tr' Hvars'. eapply post_mono; [by apply IH| |done].
  intros vars'' tr'' Hvars''. simpl in *. lia.
Qed.
End counting.

(** X24: a location collects at most one belief for every hour and every
    specification of the table: it never holds more beliefs than the
    dispatcher returned hours times the table has entries. *)
Theorem at_most_one_belief_per_hour_and_specification
    E api_key k loc tr db tr' t fcs :
  process_location E api_key k loc tr = (inr db, tr') →
  call_api E k api_key loc = inr (t, fcs) →
  (total db ≤ length fcs * length (mapping E))%nat.
Proof.
  unfold process_location, mbind, M_bind, emit, lift. intros Hrun Hcall.
  rewrite Hcall in Hrun. revert Hrun.
  pose proof (process_forecasts_add E loc (server_now E k) fcs (∅, [])) as Hloop.
  destruct (decide _); unfold mret, M_ret;
    match goal with
    | |- context [foldM ?f ?a ?l ?t] =>
        specialize (Hloop t 0%nat (Nat.le_refl 0)); unfold post in Hloop;
        destruct (foldM f a l t) as [[?|vars] ?]; [done|];
        intros [= <- _]; exact Hloop
    end.
Qed.

Lemma at_most_one_belief_per_hour_and_specification_witness :
  ∃ db tr',
    process_location (Fixture.world Fixture.table) "key" 0 Fixture.utrecht []
      = (inr db, tr') ∧
    total db = 8%nat ∧ (total db ≤ 2 * 4)%nat.
Proof.
  assert (total <$> (process_location (Fixture.world Fixture.table) "key" 0
                       Fixture.utrecht []).1 = inr 8%nat) as Htotal
    by (vm_compute; reflexivity).
  destruct (process_location (Fixture.world Fixture.table) "key" 0
              Fixture.utrecht []) as [[e|db] tr'] eqn:Hrun; [discriminate Htotal|].
  exists db, tr'. split; [reflexivity|]. split; [by injection Htotal|].
  exact (at_most_one_belief_per_hour_and_specification
           (Fixture.world Fixture.table) "key" 0 Fixture.utrecht [] db tr'
           1700000100000000 Fixture.two_hours Hrun eq_refl).
Defined.

(** ** What the registry is asked *)

Lemma process_location_asks E api_key k loc locations tr :
  loc ∈ locations →
  Forall (asks_about E locations) tr →
  post (process_location E api_key k loc) tr
    (λ _ tr', Forall (asks_about E locations) tr')
    (Forall (asks_about E locations)).
Proof.
  intros Hloc Htr. eapply post_mono.
  - apply (process_location_invariant E api_key k loc tr
             (λ _ _ tr', Forall (asks_about E locations) tr')
             (Forall (asks_about E locations))).
    + done.
    + intros tr' [->|[diff ->]]; apply Forall_app; split; by repeat constructor.
    + intros _ _ tr' label t Htr'. apply Forall_app. split; by repeat constructor.
    + intros _ _ tr' n v _ Htr'. apply Forall_app. split; by repeat constructor.
    + done.
  - by intros db tr' [_ Htr'].
  - done.
Qed.

Lemma for_locations_asks E api_key locations rest :
  ∀ k db tr,
    rest ⊆ locations →
    Forall (asks_about E locations) tr →
    post (for_locations E api_key k rest db) tr
      (λ _ tr', Forall (asks_about E locations) tr')
      (Forall (asks_about E locations)).
Proof.
  induction rest as [|loc rest IH]; intros k db tr Hrest Htr; simpl; [done|].
  eapply post_bind.
  - apply process_location_asks; [|done]. apply Hrest. by left.
  - intros db' tr' Htr'. apply IH; [|done].
    intros l Hl. apply Hrest. by right.
Qed.

(** X25: in a run the registry is only ever asked about places of the list
    of locations, and always with the configured greatest distance. *)
Theorem registry_asked_about_the_locations_only E api_key locations :
  Forall (asks_about E locations)
    (save_forecasts_in_db E api_key locations []).2.
Proof.
  pose proof (for_locations_asks E api_key locations locations 0 None []) as Hloop.
  unfold post in Hloop. unfold save_forecasts_in_db, mbind, M_bind.
  destruct (for_locations E api_key 0 locations None []) as [[e|[db|]] tr];
    simpl; try by apply Hloop.
  destruct (save_batches_trace E db tr) as (new & -> & Hnew).
  apply Forall_app. split; [by apply Hloop|].
  eapply Forall_impl; [exact Hnew|]. by intros [].
Qed.
